(** * score_fmps: scoring K-12 facility master plans against a rubric

    A shallow embedding of [scripts/score_fmps.py] and the properties of its
    helpers ([read_pdf_text], [chunk_text], [parse_possible_json], [to_rows])
    and of the batch loop of [main]. *)

From Stdlib Require Import String Ascii DecimalString.
From Stdlib Require Import List ZArith NArith Lia Bool.
Import ListNotations.

Local Open Scope Z_scope.
#[local] Set Warnings "-register-all".

(** ** Python strings

    A Python [str] is a sequence of Unicode code points. *)

Definition char := N.
Definition pystr := list char.

Definition char_eqb (a b : char) : bool := N.eqb a b.

Fixpoint pystr_eqb (a b : pystr) : bool :=
  match a, b with
  | [], [] => true
  | x :: a', y :: b' => char_eqb x y && pystr_eqb a' b'
  | _, _ => false
  end.

(** The literals of the script are written as Rocq strings and read as UTF-8,
    the encoding of the source file. *)
Fixpoint utf8_decode (bs : list N) : pystr :=
  match bs with
  | [] => []
  | b :: r =>
      if (b <? 128)%N then b :: utf8_decode r
      else if (b <? 224)%N then
        match r with
        | b1 :: r' => ((b - 192) * 64 + (b1 - 128))%N :: utf8_decode r'
        | _ => []
        end
      else if (b <? 240)%N then
        match r with
        | b1 :: b2 :: r' =>
            ((b - 224) * 4096 + (b1 - 128) * 64 + (b2 - 128))%N :: utf8_decode r'
        | _ => []
        end
      else
        match r with
        | b1 :: b2 :: b3 :: r' =>
            ((b - 240) * 262144 + (b1 - 128) * 4096 + (b2 - 128) * 64 + (b3 - 128))%N
              :: utf8_decode r'
        | _ => []
        end
  end.

Definition str (s : string) : pystr :=
  utf8_decode (map N_of_ascii (list_ascii_of_string s)).

Definition len (s : pystr) : Z := Z.of_nat (List.length s).

(** [str.isspace] of one code point: the characters Unicode classes as
    whitespace (bidirectional type WS, B or S, or category Zs). *)
Definition isspace (c : char) : bool :=
  ((9 <=? c) && (c <=? 13) || (28 <=? c) && (c <=? 32) || (c =? 133) || (c =? 160)
   || (c =? 5760) || (8192 <=? c) && (c <=? 8202) || (c =? 8232) || (c =? 8233)
   || (c =? 8239) || (c =? 8287) || (c =? 12288))%N.

Definition SPACE : char := 32%N.

(** [s.split()]: the maximal runs of non-whitespace characters, in order.
    [w] is the word being scanned. *)
Fixpoint split_from (w : pystr) (s : pystr) : list pystr :=
  match s with
  | [] => match w with [] => [] | _ => [w] end
  | c :: r =>
      if isspace c
      then match w with [] => split_from [] r | _ => w :: split_from [] r end
      else split_from (w ++ [c]) r
  end.

Definition split (s : pystr) : list pystr := split_from [] s.

(** [sep.join(l)] *)
Fixpoint join (sep : pystr) (l : list pystr) : pystr :=
  match l with
  | [] => []
  | x :: r => match r with [] => x | _ => x ++ sep ++ join sep r end
  end.

(** [s.strip()] *)
Fixpoint lstrip (s : pystr) : pystr :=
  match s with
  | [] => []
  | c :: r => if isspace c then lstrip r else s
  end.

Definition rstrip (s : pystr) : pystr := rev (lstrip (rev s)).
Definition strip (s : pystr) : pystr := rstrip (lstrip s).

Fixpoint startswith (p s : pystr) : bool :=
  match p, s with
  | [], _ => true
  | a :: p', b :: s' => char_eqb a b && startswith p' s'
  | _ :: _, [] => false
  end.

(** ** chunk_text *)

(** The [for w in words] loop of [chunk_text], on the state
    [(chunks, buf, size)]. *)
Fixpoint chunk_loop (chunk_size : Z) (words : list pystr)
    (chunks buf : list pystr) (size : Z) : list pystr * list pystr :=
  match words with
  | [] => (chunks, buf)
  | w :: ws =>
      let buf := buf ++ [w] in
      let size := size + (len w + 1) in
      if size >=? chunk_size
      then chunk_loop chunk_size ws (chunks ++ [join [SPACE] buf]) [] 0
      else chunk_loop chunk_size ws chunks buf size
  end.

Definition chunk_text (s : pystr) (target_tokens : Z) : list pystr :=
  let words := split s in
  let chunk_size := target_tokens * 4 in
  let '(chunks, buf) := chunk_loop chunk_size words [] [] 0 in
  match buf with
  | [] => chunks
  | _ => chunks ++ [join [SPACE] buf]
  end.

Definition DEFAULT_TARGET_TOKENS : Z := 1200.

(** ** Exceptions and results *)

Inductive exn :=
| ValueError            (* Model returned empty output *)
| JSONDecodeError       (* raised by json.loads *)
| KeyError (k : pystr)
| TypeError
| AttributeError
| PdfReadError          (* raised by PdfReader *)
| APIError              (* raised by the remote call *)
| FileNotFoundError     (* raised by a write: no such directory *)
| UnicodeEncodeError    (* raised by a write: the text has no UTF-8 encoding *)
| OSError.              (* raised by a write: any other failure *)

Inductive result (A : Type) :=
| Ok (a : A)
| Raise (e : exn).
Arguments Ok {A} a.
Arguments Raise {A} e.

Definition bind {A B} (r : result A) (k : A -> result B) : result B :=
  match r with
  | Ok a => k a
  | Raise e => Raise e
  end.

Notation "x <- r ;; k" := (bind r (fun x => k))
  (at level 61, r at next level, right associativity).

(** ** JSON values and Python dicts

    [json.loads] yields [None], [bool], [int], [float], [str], [list] and
    [dict] values.  A [dict] keeps its keys in insertion order; assigning to
    a key that is present replaces the value in place.  A float is kept as
    the text of its literal. *)

Inductive json :=
| JNull
| JBool (b : bool)
| JInt (n : Z)
| JFloat (lit : pystr)
| JStr (s : pystr)
| JList (l : list json)
| JDict (d : list (pystr * json)).

Definition dict := list (pystr * json).

Fixpoint dict_get (d : dict) (k : pystr) : option json :=
  match d with
  | [] => None
  | (k', v) :: r => if pystr_eqb k' k then Some v else dict_get r k
  end.

(** [d[k] = v] *)
Fixpoint dict_set (d : dict) (k : pystr) (v : json) : dict :=
  match d with
  | [] => [(k, v)]
  | (k', v') :: r =>
      if pystr_eqb k' k then (k', v) :: r else (k', v') :: dict_set r k v
  end.

Definition keys (d : dict) : list pystr := map fst d.

(** [v[k]] for a string key [k] *)
Definition getitem (v : json) (k : pystr) : result json :=
  match v with
  | JDict d =>
      match dict_get d k with
      | Some x => Ok x
      | None => Raise (KeyError k)
      end
  | _ => Raise TypeError
  end.

(** [v.items()] *)
Definition items (v : json) : result dict :=
  match v with
  | JDict d => Ok d
  | _ => Raise AttributeError
  end.

(** ** A decoder of the JSON grammar

    [json.loads] belongs to the Python library, not to the script: every
    property below that goes through it is stated for an arbitrary decoder
    (see [env]).  The decoder of this module follows the grammar that
    [json.loads] accepts (RFC 8259, duplicate keys resolved as a [dict] does,
    the constants NaN, Infinity and -Infinity) and serves to run the script
    on concrete replies. *)

Module JsonDecoder.

Definition is_ws (c : char) : bool :=
  ((c =? 32) || (c =? 9) || (c =? 10) || (c =? 13))%N.

Fixpoint skip_ws (s : pystr) : pystr :=
  match s with
  | [] => []
  | c :: r => if is_ws c then skip_ws r else s
  end.

Definition is_digit (c : char) : bool := ((48 <=? c) && (c <=? 57))%N.

Definition hex_val (c : char) : option N :=
  if is_digit c then Some (c - 48)%N
  else if ((97 <=? c) && (c <=? 102))%N then Some (c - 87)%N
  else if ((65 <=? c) && (c <=? 70))%N then Some (c - 55)%N
  else None.

Definition hex4 (a b c d : char) : option N :=
  match hex_val a, hex_val b, hex_val c, hex_val d with
  | Some x, Some y, Some z, Some w => Some (x * 4096 + y * 256 + z * 16 + w)%N
  | _, _, _, _ => None
  end.

Definition escape (c : char) : option char :=
  if (c =? 34)%N then Some 34%N          (* quote *)
  else if (c =? 92)%N then Some 92%N     (* backslash *)
  else if (c =? 47)%N then Some 47%N     (* slash *)
  else if (c =? 98)%N then Some 8%N      (* b *)
  else if (c =? 102)%N then Some 12%N    (* f *)
  else if (c =? 110)%N then Some 10%N    (* n *)
  else if (c =? 114)%N then Some 13%N    (* r *)
  else if (c =? 116)%N then Some 9%N     (* t *)
  else None.

(** The characters of a string after its opening quote, up to the closing
    one; a surrogate pair written as two escapes is one code point. *)
Fixpoint scanstring (s : pystr) (acc : pystr) : option (pystr * pystr) :=
  match s with
  | [] => None
  | c :: r =>
      if (c =? 34)%N then Some (acc, r)
      else if (c <? 32)%N then None
      else if (c =? 92)%N then
        match r with
        | [] => None
        | e :: r1 =>
            if (e =? 117)%N then
              match r1 with
              | h1 :: h2 :: h3 :: h4 :: r2 =>
                  match hex4 h1 h2 h3 h4 with
                  | None => None
                  | Some u =>
                      match r2 with
                      | b :: v :: g1 :: g2 :: g3 :: g4 :: r3 =>
                          match hex4 g1 g2 g3 g4 with
                          | Some u2 =>
                              if ((b =? 92) && (v =? 117) && (55296 <=? u) && (u <=? 56319)
                                  && (56320 <=? u2) && (u2 <=? 57343))%N
                              then scanstring r3
                                     (acc ++ [65536 + ((u - 55296) * 1024 + (u2 - 56320))])%N
                              else scanstring r2 (acc ++ [u])
                          | None => scanstring r2 (acc ++ [u])
                          end
                      | _ => scanstring r2 (acc ++ [u])
                      end
                  end
              | _ => None
              end
            else
              match escape e with
              | Some x => scanstring r1 (acc ++ [x])
              | None => None
              end
        end
      else scanstring r (acc ++ [c])
  end.

Fixpoint scan_digits (s : pystr) (acc : pystr) : pystr * pystr :=
  match s with
  | c :: r => if is_digit c then scan_digits r (acc ++ [c]) else (acc, s)
  | [] => (acc, [])
  end.

Definition digits_value (ds : pystr) : Z :=
  fold_left (fun n c => 10 * n + Z.of_N (c - 48)) ds 0.

(** The integer part [0|[1-9][0-9]*] *)
Definition scan_int (s : pystr) : option (pystr * pystr) :=
  match s with
  | c :: r =>
      if (c =? 48)%N then Some ([c], r)
      else if is_digit c then Some (scan_digits s [])
      else None
  | [] => None
  end.

(** The optional fraction [\.[0-9]+] and exponent [[eE][-+]?[0-9]+] *)
Definition scan_frac (s : pystr) : pystr * pystr :=
  match s with
  | c :: r =>
      if (c =? 46)%N then
        match scan_digits r [] with
        | ([], _) => ([], s)
        | (ds, r') => (c :: ds, r')
        end
      else ([], s)
  | [] => ([], s)
  end.

Definition scan_exp (s : pystr) : pystr * pystr :=
  match s with
  | c :: r =>
      if ((c =? 101) || (c =? 69))%N then
        let '(sign, r1) :=
          match r with
          | g :: r' => if ((g =? 43) || (g =? 45))%N then ([g], r') else ([], r)
          | [] => ([], r)
          end in
        match scan_digits r1 [] with
        | ([], _) => ([], s)
        | (ds, r') => (c :: sign ++ ds, r')
        end
      else ([], s)
  | [] => ([], s)
  end.

Definition scan_number (neg : bool) (s : pystr) : option (json * pystr) :=
  match scan_int s with
  | None => None
  | Some (ip, r) =>
      let '(frac, r1) := scan_frac r in
      let '(ex, r2) := scan_exp r1 in
      let sign := if neg then [45%N] else [] in
      match frac, ex with
      | [], [] => Some (JInt (if neg then - digits_value ip else digits_value ip), r2)
      | _, _ => Some (JFloat (sign ++ ip ++ frac ++ ex), r2)
      end
  end.

Definition literal (name : pystr) (v : json) (s : pystr) : option (json * pystr) :=
  if startswith name s then Some (v, skipn (List.length name) s) else None.

Fixpoint scan_once (fuel : nat) (s : pystr) : option (json * pystr) :=
  match fuel with
  | O => None
  | S f =>
      match s with
      | [] => None
      | c :: r =>
          if (c =? 34)%N then
            match scanstring r [] with
            | Some (x, r') => Some (JStr x, r')
            | None => None
            end
          else if (c =? 123)%N then
            match skip_ws r with
            | c' :: r' =>
                if (c' =? 125)%N then Some (JDict [], r') else members f (c' :: r') []
            | [] => None
            end
          else if (c =? 91)%N then
            match skip_ws r with
            | c' :: r' =>
                if (c' =? 93)%N then Some (JList [], r') else elements f (c' :: r') []
            | [] => None
            end
          else if (c =? 110)%N then literal (str "null") JNull s
          else if (c =? 116)%N then literal (str "true") (JBool true) s
          else if (c =? 102)%N then literal (str "false") (JBool false) s
          else if (c =? 78)%N then literal (str "NaN") (JFloat (str "NaN")) s
          else if (c =? 73)%N then literal (str "Infinity") (JFloat (str "Infinity")) s
          else if (c =? 45)%N then
            match scan_number true r with
            | Some x => Some x
            | None => literal (str "-Infinity") (JFloat (str "-Infinity")) s
            end
          else scan_number false s
      end
  end

(** one [key : value] pair and what follows it, [s] at the key's quote *)
with members (fuel : nat) (s : pystr) (acc : dict) : option (json * pystr) :=
  match fuel with
  | O => None
  | S f =>
      match s with
      | q :: r =>
          if (q =? 34)%N then
            match scanstring r [] with
            | None => None
            | Some (k, r1) =>
                match skip_ws r1 with
                | colon :: r2 =>
                    if (colon =? 58)%N then
                      match scan_once f (skip_ws r2) with
                      | None => None
                      | Some (v, r3) =>
                          let acc := dict_set acc k v in
                          match skip_ws r3 with
                          | d :: r4 =>
                              if (d =? 125)%N then Some (JDict acc, r4)
                              else if (d =? 44)%N then members f (skip_ws r4) acc
                              else None
                          | [] => None
                          end
                      end
                    else None
                | [] => None
                end
            end
          else None
      | [] => None
      end
  end

(** one array element and what follows it *)
with elements (fuel : nat) (s : pystr) (acc : list json) : option (json * pystr) :=
  match fuel with
  | O => None
  | S f =>
      match scan_once f s with
      | None => None
      | Some (v, r1) =>
          let acc := acc ++ [v] in
          match skip_ws r1 with
          | d :: r2 =>
              if (d =? 93)%N then Some (JList acc, r2)
              else if (d =? 44)%N then elements f (skip_ws r2) acc
              else None
          | [] => None
          end
      end
  end.

Definition loads (s : pystr) : option json :=
  if startswith [65279%N] s then None else
  match scan_once (2 + List.length s) (skip_ws s) with
  | Some (v, rest) => match skip_ws rest with [] => Some v | _ => None end
  | None => None
  end.

End JsonDecoder.

(** ** The world outside the script

    The Unicode case tables used by [str.title], the JSON decoder, the PDF
    reader, the remote model, the file system and the standard output.  A
    write to a file and a [print] may raise; which file a path leads to is
    for the file system to say. *)

(** What a file holds. *)
Inductive content :=
| Text (s : pystr)                 (* write_text(s) *)
| JsonDump (v : json)              (* json.dumps(v, indent=2, ensure_ascii=False) *)
| CsvDump (rows : list dict).      (* pd.DataFrame(rows).to_csv(index=False) *)

(** A path as pathlib holds it: its root (none, one slash or two) and its
    components. *)
Definition purepath : Type := pystr * list pystr.

(** What a write does: the file is stored, or the call raises and leaves the
    file as it was ([None]) or holding something else (it is empty after an
    encoding error). *)
Inductive write_result :=
| Stored
| Failed (e : exn) (remains : option content).

(** What the run does to the world, in order.  [path] is the right operand
    of [out_dir / path]. *)
Inductive event :=
| ModelCalled (n : nat) (user : pystr)
| Written (path : pystr) (c : content)
| WriteFailed (path : pystr) (e : exn) (remains : option content)
| ParseAttempted (raw : pystr).

(** The two messages that the run prints: the one of the handler of a reply
    that does not parse, made of the district, the path of the raw file and
    the exception, and the last line of a run, made of the path of
    [scores.csv]. *)
Inductive message :=
| CouldNotParse (district : pystr) (raw_file : purepath) (e : exn)
| DoneWrote (csv_file : purepath).

(** What [p.extract_text()] does on a page. *)
Inductive page :=
| Extracts (t : pystr)
| ExtractsNone
| ExtractRaises.

Record casing := {
  is_cased : char -> bool;
  to_title : char -> pystr;
  (** lower-casing of the character at index [i] of [s] (the mapping of one
      character may depend on its neighbours) *)
  lower_at : pystr -> nat -> char -> pystr
}.

Record env := {
  unicode : casing;
  (** [json.loads]; [None] when it raises *)
  json_loads : pystr -> option json;
  (** [PdfReader(path).pages]; [None] when the reader raises *)
  PdfReader : pystr -> option (list page);
  (** [Path(path).read_text()] *)
  read_text : pystr -> pystr;
  (** the [n]-th call of [client.chat.completions.create] with a model name,
      the system content and the user content: the message content (which
      may be [None]) or an exception *)
  chat_completions_create : nat -> pystr -> pystr -> pystr -> result (option pystr);
  (** [path.write_text(...)] and [df.to_csv(path)], after the events so far,
      on the path that pathlib makes *)
  write_file : list event -> purepath -> content -> write_result;
  (** the file that the file system finds at a path, as [os.path.realpath]
      names it once [..] and the links are followed *)
  realpath : purepath -> purepath;
  (** [print(...)] of a message: the exception, when the write to the
      standard output raises *)
  print : message -> option exn
}.

(** The case tables on the ASCII range. *)
Definition is_upper_ascii (c : char) : bool := ((65 <=? c) && (c <=? 90))%N.
Definition is_lower_ascii (c : char) : bool := ((97 <=? c) && (c <=? 122))%N.

Definition ascii_casing : casing := {|
  is_cased := fun c => is_upper_ascii c || is_lower_ascii c;
  to_title := fun c => if is_lower_ascii c then [(c - 32)%N] else [c];
  lower_at := fun _ _ c => if is_upper_ascii c then [(c + 32)%N] else [c]
|}.

(** ** read_pdf_text *)

(** [l[:k]] *)
Definition slice_to {A} (l : list A) (k : Z) : list A :=
  if k <? 0
  then firstn (Z.to_nat (Z.max 0 (Z.of_nat (List.length l) + k))) l
  else firstn (Z.to_nat k) l.

(** [max_pages or n] *)
Definition or_else (max_pages : option Z) (n : Z) : Z :=
  match max_pages with
  | None => n
  | Some m => if m =? 0 then n else m
  end.

(** The pages the loop of [read_pdf_text] goes through. *)
Definition pages_read (reader_pages : list page) (max_pages : option Z) : list page :=
  slice_to reader_pages (or_else max_pages (Z.of_nat (List.length reader_pages))).

Definition extract_or_empty (p : page) : pystr :=
  match p with
  | Extracts t => t
  | ExtractsNone => []
  | ExtractRaises => []
  end.

Definition read_pdf_text (reader_pages : list page) (max_pages : option Z) : pystr :=
  let pages := pages_read reader_pages max_pages in
  let text := map extract_or_empty pages in
  join [10%N; 10%N] text.

(** ** parse_possible_json *)

Definition LBRACE : char := 123%N.
Definition RBRACE : char := 125%N.
Definition FENCE : pystr := str "```".
Definition FENCE_JSON : pystr := str "```json".

(** The second alternative of the wrapper pattern, [\s*```$], tried at the
    head of [s]: the greedy run of whitespace, the fence, and then the end of
    the string or the newline that ends it.  The result is what stays after
    the match. *)
Definition closing_fence (s : pystr) : option pystr :=
  let r := lstrip s in
  if pystr_eqb r FENCE then Some []
  else if pystr_eqb r (FENCE ++ [10%N]) then Some [10%N]
  else None.

(** [re.sub] past the start of the string: the leftmost match of the second
    alternative is deleted; nothing matches in what stays after it. *)
Fixpoint sub_closing_fence (s : pystr) : pystr :=
  match s with
  | [] => []
  | c :: r =>
      match closing_fence s with
      | Some rest => rest
      | None => c :: sub_closing_fence r
      end
  end.

(** [re.sub] of the wrapper pattern [^```json\s*|\s*```$] by the empty
    string, with [re.S]. *)
Definition sub_wrappers (s : pystr) : pystr :=
  if startswith FENCE_JSON s
  then sub_closing_fence (lstrip (skipn (List.length FENCE_JSON) s))
  else sub_closing_fence s.

(** [.*\}\s*\Z] matches [s] (with [re.S]): some closing brace of [s] is
    followed by whitespace only. *)
Fixpoint closes_at_end (s : pystr) : bool :=
  match s with
  | [] => false
  | c :: r => (char_eqb c RBRACE && forallb isspace r) || closes_at_end r
  end.

(** [re.search] of [\{.*\}\s*\Z] in [s], with [re.S]: the match starts at the
    leftmost opening brace from which the pattern matches, and [group(0)]
    runs to the end of the string. *)
Fixpoint search_object (s : pystr) : option pystr :=
  match s with
  | [] => None
  | c :: r =>
      if char_eqb c LBRACE && closes_at_end r then Some s else search_object r
  end.

(** The text that [parse_possible_json] hands to [json.loads]. *)
Definition json_candidate (s : pystr) : result pystr :=
  let s := strip s in
  match s with
  | [] => Raise ValueError
  | _ =>
      let s := strip (sub_wrappers s) in
      if startswith [LBRACE] s then Ok s
      else
        match search_object s with
        | Some m => Ok m
        | None => Ok s
        end
  end.

Definition parse_possible_json (E : env) (s : pystr) : result json :=
  c <- json_candidate s ;;
  match json_loads E c with
  | Some v => Ok v
  | None => Raise JSONDecodeError
  end.

(** ** to_rows *)

Definition WHY : pystr := str " — why".

Fixpoint to_rows_loop (its : dict) (row : dict) : result dict :=
  match its with
  | [] => Ok row
  | (k, v) :: rest =>
      score <- getitem v (str "score") ;;
      let row := dict_set row k score in
      why <- getitem v (str "justification") ;;
      let row := dict_set row (k ++ WHY) why in
      to_rows_loop rest row
  end.

Definition to_rows (obj : json) : result (list dict) :=
  district <- getitem obj (str "district") ;;
  let row := [(str "district", district)] in
  scores <- getitem obj (str "scores") ;;
  its <- items scores ;;
  row <- to_rows_loop its row ;;
  Ok [row].

(** The seven categories of the rubric, as the prompts name them. *)
Definition CATEGORIES : list pystr :=
  [ str "Facility Inventory & Condition Assessment";
    str "Enrollment & Capacity Planning";
    str "Educational Alignment";
    str "Outdoor Spaces & Greening";
    str "Climate Risk & Mitigation";
    str "Energy Efficiency & Resilience";
    str "Financial Plan & Capital Strategy" ].

(** ** District names *)

Definition SLASH : char := 47%N.
Definition DOT : char := 46%N.
Definition UNDERSCORE : char := 95%N.

(** [s.split(sep)] for a separator of one character *)
Fixpoint split_on (sep : char) (cur : pystr) (s : pystr) : list pystr :=
  match s with
  | [] => [cur]
  | c :: r => if char_eqb c sep then cur :: split_on sep [] r else split_on sep (cur ++ [c]) r
  end.

(** [Path(p).name]: the last component of the path, empty when it has none. *)
Definition path_name (p : pystr) : pystr :=
  let parts :=
    filter (fun x => negb (pystr_eqb x [] || pystr_eqb x [DOT])) (split_on SLASH [] p) in
  last parts [].

(** [name.rfind(c)] *)
Fixpoint rfind (c : char) (s : pystr) : option nat :=
  match s with
  | [] => None
  | x :: r =>
      match rfind c r with
      | Some i => Some (S i)
      | None => if char_eqb x c then Some O else None
      end
  end.

(** [Path(p).stem]: the name without its last suffix; a dot that starts or
    ends the name opens no suffix. *)
Definition stem (p : pystr) : pystr :=
  let name := path_name p in
  match rfind DOT name with
  | Some i =>
      if (0 <? i)%nat && (i <? List.length name - 1)%nat then firstn i name else name
  | None => name
  end.

(** [s.replace(old, new)] for two strings of one character *)
Definition replace (old new : char) (s : pystr) : pystr :=
  map (fun c => if char_eqb c old then new else c) s.

(** [s.title()]: a character that follows a cased one is lower-cased, any
    other is title-cased. *)
Fixpoint title_from (U : casing) (whole : pystr) (i : nat) (previous_is_cased : bool)
    (s : pystr) : pystr :=
  match s with
  | [] => []
  | c :: r =>
      (if previous_is_cased then lower_at U whole i c else to_title U c)
        ++ title_from U whole (S i) (is_cased U c) r
  end.

Definition title (U : casing) (s : pystr) : pystr := title_from U s O false s.

Definition derived_name (U : casing) (pdf : pystr) : pystr :=
  title U (replace UNDERSCORE SPACE (stem pdf)).

Definition is_nil {A} (l : list A) : bool :=
  match l with [] => true | _ => false end.

(** The district of the [i]-th document. *)
Definition pick_district (U : casing) (district_names : option (list pystr))
    (i : nat) (pdf : pystr) : pystr :=
  match district_names with
  | Some names =>
      if negb (is_nil names) && (i <? List.length names)%nat
      then nth i names []
      else derived_name U pdf
  | None => derived_name U pdf
  end.

(** ** Prompts *)

(** A literal in which the apostrophe stands for the double quote. *)
Definition qstr (s : string) : pystr :=
  map (fun c => if (c =? 39)%N then 34%N else c) (str s).

Definition SYSTEM_PROMPT : pystr := str
"You are an analyst scoring K–12 Facility Master Plans using the provided rubric.
Return STRICT JSON only. No prose. Follow the schema exactly.
Scoring categories and allowed ranges:
- Facility Inventory & Condition Assessment: 1–4
- Enrollment & Capacity Planning: 1–4
- Educational Alignment: 1–4
- Outdoor Spaces & Greening: 1–4
- Climate Risk & Mitigation: 0–4
- Energy Efficiency & Resilience: 1–4
- Financial Plan & Capital Strategy: 1–4
For each category, include a concise 1–2 sentence justification with page/section citations if possible.
".

(** [USER_PROMPT_TEMPLATE.format(rubric=..., district=..., chunks=...)] *)
Definition user_prompt_format (rubric district chunks : pystr) : pystr :=
  str
"Rubric (verbatim):
---
" ++ rubric ++ str "
---

Plan content (chunked). Combine evidence across chunks. If a category is not covered, score at the appropriate lower tier and say why.

Return JSON with this exact shape:

{
  " ++ qstr "'district': '" ++ district ++ qstr "',
  'scores': {
    'Facility Inventory & Condition Assessment': {'score': int, 'justification': str},
    'Enrollment & Capacity Planning': {'score': int, 'justification': str},
    'Educational Alignment': {'score': int, 'justification': str},
    'Outdoor Spaces & Greening': {'score': int, 'justification': str},
    'Climate Risk & Mitigation': {'score': int, 'justification': str},
    'Energy Efficiency & Resilience': {'score': int, 'justification': str},
    'Financial Plan & Capital Strategy': {'score': int, 'justification': str}
  }
}

Plan chunks:
" ++ chunks ++ str "
".

Definition decimal (n : nat) : pystr :=
  str (DecimalString.NilZero.string_of_uint (Nat.to_uint n)).

(** The chunks under their [--- CHUNK j ---] headers, [j] counted from 1. *)
Fixpoint chunk_headers (j : nat) (chunks : list pystr) : list pystr :=
  match chunks with
  | [] => []
  | c :: r =>
      (str "--- CHUNK " ++ decimal (j + 1) ++ str " ---" ++ [10%N] ++ c)
        :: chunk_headers (S j) r
  end.

Definition call_model (E : env) (n : nat) (model system user : pystr) : result pystr :=
  content <-
    chat_completions_create E n model
      (system ++ [10%N] ++ str "Return ONLY valid JSON. No prose, no markdown.") user ;;
  match content with
  | Some c => Ok c
  | None => Ok []
  end.

(** ** The batch loop of main *)

Record args := {
  rubric : pystr;
  pdfs : list pystr;
  district_names : option (list pystr);
  model : pystr;
  max_pages : option Z;
  out : pystr
}.

Record state := {
  log : list event;
  all_rows : list dict
}.

Definition emit (st : state) (ev : event) : state :=
  {| log := log st ++ [ev]; all_rows := all_rows st |}.

Definition extend_rows (st : state) (rows : list dict) : state :=
  {| log := log st; all_rows := all_rows st ++ rows |}.

(** The root of a POSIX path: a slash, or two slashes for a path that starts
    with exactly two. *)
Definition path_root (s : pystr) : pystr :=
  match s with
  | c1 :: r1 =>
      if char_eqb c1 SLASH then
        match r1 with
        | c2 :: r2 =>
            if char_eqb c2 SLASH then
              match r2 with
              | c3 :: _ => if char_eqb c3 SLASH then [SLASH] else [SLASH; SLASH]
              | [] => [SLASH; SLASH]
              end
            else [SLASH]
        | [] => [SLASH]
        end
      else []
  | [] => []
  end.

(** The components of a path: empty ones and single dots are dropped. *)
Definition path_parts (s : pystr) : list pystr :=
  filter (fun x => negb (pystr_eqb x [] || pystr_eqb x [DOT])) (split_on SLASH [] s).

(** [Path(s)] *)
Definition Path (s : pystr) : purepath := (path_root s, path_parts s).

(** [p / name]: a name with a root replaces [p]. *)
Definition joinpath (p : purepath) (name : pystr) : purepath :=
  match path_root name with
  | [] => (fst p, snd p ++ path_parts name)
  | root => (root, path_parts name)
  end.

(** [Path(out) / name] *)
Definition file_of (out name : pystr) : purepath := joinpath (Path out) name.

Fixpoint parts_eqb (x y : list pystr) : bool :=
  match x, y with
  | [], [] => true
  | u :: x', v :: y' => pystr_eqb u v && parts_eqb x' y'
  | _, _ => false
  end.

Definition purepath_eqb (f g : purepath) : bool :=
  pystr_eqb (fst f) (fst g) && parts_eqb (snd f) (snd g).

(** The extension of a path: what follows the last dot of its last
    component. *)
Definition extension (f : purepath) : pystr :=
  let name := last (snd f) [] in
  match rfind DOT name with
  | Some i => skipn (S i) name
  | None => []
  end.

(** The extensions of the files that the script writes. *)
Definition EXTENSIONS : list pystr := [str "txt"; str "json"; str "csv"].

(** Two paths whose extensions are two of these. *)
Definition kinds_differ (f g : purepath) : bool :=
  existsb (pystr_eqb (extension f)) EXTENSIONS
  && existsb (pystr_eqb (extension g)) EXTENSIONS
  && negb (pystr_eqb (extension f) (extension g)).

(** Two names handed to [out_dir / name] are one file when the file system
    finds the same file at the two paths that pathlib makes of them.  The
    three kinds of files of the script are kept apart: no link leads from a
    [.txt], a [.json] or a [.csv] name to a file of another of the three. *)
Definition same_file (E : env) (out p q : pystr) : bool :=
  negb (kinds_differ (file_of out p) (file_of out q))
  && purepath_eqb (realpath E (file_of out p)) (realpath E (file_of out q)).

(** What an event leaves in the file named [path] under [out], if it
    touches it: what was written, or what a write that raised left. *)
Definition left_at (E : env) (out : pystr) (ev : event) (path : pystr)
    : option content :=
  match ev with
  | Written p c => if same_file E out p path then Some c else None
  | WriteFailed p _ (Some c) => if same_file E out p path then Some c else None
  | _ => None
  end.

(** The file named [path] under [out] after the events of [l]: what the
    last event that touched it left there, [None] when none did. *)
Fixpoint file_at (E : env) (out : pystr) (l : list event) (path : pystr)
    : option content :=
  match l with
  | [] => None
  | ev :: r =>
      match file_at E out r path with
      | Some c => Some c
      | None => left_at E out ev path
      end
  end.

Inductive outcome :=
| Done
| Raised (e : exn).

Definition EMPTY_RESPONSE : pystr := str "<EMPTY_RESPONSE>".

Definition raw_path (district : pystr) : pystr := district ++ str "_raw.txt".
Definition json_path (district : pystr) : pystr := district ++ str ".json".
Definition SCORES_CSV : pystr := str "scores.csv".
Definition SCORES_JSON : pystr := str "scores.json".

(** [raw if raw else EMPTY_RESPONSE] *)
Definition raw_or_marker (raw : pystr) : pystr :=
  match raw with
  | [] => EMPTY_RESPONSE
  | _ => raw
  end.

(** The user prompt of the [i]-th document. *)
Definition user_prompt_of (E : env) (a : args) (district : pystr)
    (reader_pages : list page) : pystr :=
  let text := read_pdf_text reader_pages (max_pages a) in
  let chunks := chunk_text text 1200 in
  let chunk_block := join [10%N; 10%N] (chunk_headers O chunks) in
  user_prompt_format (read_text E (rubric a)) district chunk_block.

(** A write of [c] to [out_dir / path]: the event that it leaves in the log,
    and the exception when it raises. *)
Definition write (E : env) (a : args) (st : state) (path : pystr) (c : content)
    : state * outcome :=
  match write_file E (log st) (file_of (out a) path) c with
  | Stored => (emit st (Written path c), Done)
  | Failed e remains => (emit st (WriteFailed path e remains), Raised e)
  end.

(** One turn of [for i, pdf in enumerate(args.pdfs)]. *)
Definition body (E : env) (a : args) (i : nat) (pdf : pystr) (st : state)
    : state * outcome :=
  let district := pick_district (unicode E) (district_names a) i pdf in
  match PdfReader E pdf with
  | None => (st, Raised PdfReadError)
  | Some reader_pages =>
      let user_prompt := user_prompt_of E a district reader_pages in
      let st := emit st (ModelCalled i user_prompt) in
      match call_model E i (model a) SYSTEM_PROMPT user_prompt with
      | Raise e => (st, Raised e)
      | Ok raw =>
          match write E a st (raw_path district) (Text (raw_or_marker raw)) with
          | (st, Raised e) => (st, Raised e)
          | (st, Done) =>
              let st := emit st (ParseAttempted raw) in
              match parse_possible_json E raw with
              | Raise e =>
                  (* except Exception as e: print(...); raise *)
                  match print E (CouldNotParse district
                                   (file_of (out a) (raw_path district)) e) with
                  | Some e' => (st, Raised e')
                  | None => (st, Raised e)
                  end
              | Ok obj =>
                  match write E a st (json_path district) (JsonDump obj) with
                  | (st, Raised e) => (st, Raised e)
                  | (st, Done) =>
                      match to_rows obj with
                      | Raise e => (st, Raised e)
                      | Ok rows => (extend_rows st rows, Done)
                      end
                  end
              end
          end
      end
  end.

Fixpoint loop (E : env) (a : args) (i : nat) (docs : list pystr) (st : state)
    : state * outcome :=
  match docs with
  | [] => (st, Done)
  | pdf :: rest =>
      match body E a i pdf st with
      | (st', Done) => loop E a (S i) rest st'
      | (st', Raised e) => (st', Raised e)
      end
  end.

Definition initial : state := {| log := []; all_rows := [] |}.

(** [main] from the loop on: the documents in order, then the two aggregate
    files and the last line. *)
Definition main (E : env) (a : args) : state * outcome :=
  match loop E a O (pdfs a) initial with
  | (st, Done) =>
      match write E a st SCORES_CSV (CsvDump (all_rows st)) with
      | (st, Raised e) => (st, Raised e)
      | (st, Done) =>
          match write E a st SCORES_JSON (JsonDump (JList (map JDict (all_rows st)))) with
          | (st, Raised e) => (st, Raised e)
          | (st, Done) =>
              match print E (DoneWrote (file_of (out a) SCORES_CSV)) with
              | Some e => (st, Raised e)
              | None => (st, Done)
              end
          end
      end
  | (st, Raised e) => (st, Raised e)
  end.

(** ** Concrete inputs *)

(** A document of three pages. *)
Definition three_pages : list page :=
  [Extracts (str "one"); ExtractsNone; Extracts (str "three")].

(** A word of 4799 letters followed by a second word. *)
Definition long_word_text : pystr := repeat 97%N 4799 ++ [SPACE; 98%N].

(** The reply of the Row Projector example of the specification. *)
Definition oakville_reply : json :=
  JDict
    [ (str "district", JStr (str "Oakville"));
      (str "scores",
       JDict
         [ (str "Energy Efficiency & Resilience",
            JDict [ (str "score", JInt 3); (str "justification", JStr (str "ok")) ]) ]) ].

(** A reply whose only category is named [district]. *)
Definition shadowing_reply : json :=
  JDict
    [ (str "district", JStr (str "Oakville"));
      (str "scores",
       JDict
         [ (str "district",
            JDict [ (str "score", JInt 3); (str "justification", JStr (str "ok")) ]) ]) ].

(** [os.path.normpath] on the components of a path: a [..] takes the
    component before it away, and stays at the start of a path without
    root. *)
Fixpoint collapse (rooted : bool) (done : list pystr) (parts : list pystr)
    : list pystr :=
  match parts with
  | [] => rev done
  | p :: r =>
      if pystr_eqb p [DOT; DOT] then
        match done with
        | top :: below =>
            if pystr_eqb top [DOT; DOT] then collapse rooted (p :: done) r
            else collapse rooted below r
        | [] => if rooted then collapse rooted [] r else collapse rooted [p] r
        end
      else collapse rooted (p :: done) r
  end.

Definition normpath (f : purepath) : purepath :=
  (fst f, collapse (negb (pystr_eqb (fst f) [])) [] (snd f)).

(** A world in which every document has the pages [pages] and the
    [n]-th call of the model returns the [n]-th of [replies]; every write
    succeeds, and the file system has no links. *)
Definition scripted (pages : list page) (replies : list pystr) : env := {|
  unicode := ascii_casing;
  json_loads := JsonDecoder.loads;
  PdfReader := fun _ => Some pages;
  read_text := fun _ => str "rubric";
  chat_completions_create := fun n _ _ _ =>
    match nth_error replies n with
    | Some r => Ok (Some r)
    | None => Raise APIError
    end;
  write_file := fun _ _ _ => Stored;
  realpath := normpath;
  print := fun _ => None
|}.


Definition run_args (docs : list pystr) (names : option (list pystr)) : args := {|
  rubric := str "rubric.md";
  pdfs := docs;
  district_names := names;
  model := str "gpt-4o-mini";
  max_pages := None;
  out := str "scores"
|}.

Definition oakville_text : pystr :=
  qstr "{'district': 'Oakville', 'scores': {'Energy Efficiency & Resilience': {'score': 3, 'justification': 'ok'}}}".

Definition not_json : pystr := str "not json at all".

(** Prose with a brace of its own before the object. *)
Definition braced_prose_reply : pystr := qstr "Scores {draft}: {'a': 1}".

Definition two_documents : list pystr := [str "north_plan.pdf"; str "south_plan.pdf"].

(** Two documents under their derived districts; the second reply does not
    parse. *)
Definition failing_world : env := scripted three_pages [oakville_text; not_json].
Definition failing_run : args := run_args two_documents None.








(** ** Notions used in the statements *)

(** What the counter [size] of [chunk_text] holds for a buffer: the length of
    every word and one more for each. *)
Fixpoint weight (buf : list pystr) : Z :=
  match buf with
  | [] => 0
  | w :: r => (len w + 1) + weight r
  end.

(** The columns that one entry of the [scores] mapping stands for. *)
Definition column_names (k : pystr) : list pystr := [k; k ++ WHY].

Definition columns (entry : pystr * json) : dict :=
  match getitem (snd entry) (str "score"), getitem (snd entry) (str "justification") with
  | Ok score, Ok why => [(fst entry, score); (fst entry ++ WHY, why)]
  | _, _ => []
  end.

(** The Row of a reply, by the contract of the Row Projector: the district,
    then the two columns of every entry, in the order of the entries. *)
Definition flat_row (district : json) (scores : dict) : dict :=
  (str "district", district) :: flat_map columns scores.

Definition has_score_and_why (entry : pystr * json) : Prop :=
  exists score why,
    getitem (snd entry) (str "score") = Ok score
    /\ getitem (snd entry) (str "justification") = Ok why.

Fixpoint mem (k : pystr) (l : list pystr) : bool :=
  match l with
  | [] => false
  | x :: r => pystr_eqb x k || mem k r
  end.

(** No name occurs twice in [l]. *)
Fixpoint distinct (l : list pystr) : bool :=
  match l with
  | [] => true
  | x :: r => negb (mem x r) && distinct r
  end.

(** The fifteen columns of the rubric: the district and two for each of the
    seven categories. *)
Definition SCHEMA : list pystr := str "district" :: flat_map column_names CATEGORIES.

(** The district of the [i]-th document [pdf] of a run. *)
Definition district_of (E : env) (a : args) (i : nat) (pdf : pystr) : pystr :=
  pick_district (unicode E) (district_names a) i pdf.

(** The reply of the model for the [i]-th document [pdf], when the document
    is read and the call returns. *)
Definition reply_of (E : env) (a : args) (i : nat) (pdf : pystr) : option pystr :=
  match PdfReader E pdf with
  | None => None
  | Some reader_pages =>
      match call_model E i (model a) SYSTEM_PROMPT
              (user_prompt_of E a (district_of E a i pdf) reader_pages) with
      | Ok raw => Some raw
      | Raise _ => None
      end
  end.

(** The user prompt of the [i]-th document [pdf]. *)
Definition prompt_at (E : env) (a : args) (i : nat) (pdf : pystr) : pystr :=
  match PdfReader E pdf with
  | Some reader_pages => user_prompt_of E a (district_of E a i pdf) reader_pages
  | None => []
  end.

(** What the write of the reply [raw] of the [i]-th document does, in the
    turn that starts in [st]. *)
Definition raw_write (E : env) (a : args) (i : nat) (pdf : pystr) (st : state)
    (raw : pystr) : write_result :=
  write_file E (log st ++ [ModelCalled i (prompt_at E a i pdf)])
    (file_of (out a) (raw_path (district_of E a i pdf))) (Text (raw_or_marker raw)).

(** What the turn of the [i]-th document raises when its reply does not
    parse with the exception [e]: [e], or what [print] raises on the
    message of the handler. *)
Definition raised_by_handler (E : env) (a : args) (i : nat) (pdf : pystr) (e : exn)
    : exn :=
  let d := district_of E a i pdf in
  match print E (CouldNotParse d (file_of (out a) (raw_path d)) e) with
  | Some e' => e'
  | None => e
  end.

(** What the write of the parsed reply does in that turn, after the reply
    was stored. *)
Definition json_write (E : env) (a : args) (i : nat) (pdf : pystr) (st : state)
    (raw : pystr) (obj : json) : write_result :=
  write_file E
    (log st
     ++ [ ModelCalled i (prompt_at E a i pdf);
          Written (raw_path (district_of E a i pdf)) (Text (raw_or_marker raw));
          ParseAttempted raw ])
    (file_of (out a) (json_path (district_of E a i pdf))) (JsonDump obj).

(** The districts of the documents [docs], the first of which is the
    [i]-th of the run. *)
Fixpoint districts (E : env) (a : args) (i : nat) (docs : list pystr) : list pystr :=
  match docs with
  | [] => []
  | pdf :: rest => district_of E a i pdf :: districts E a (S i) rest
  end.

(** An event of the turn of the [i]-th document, of district [d]. *)
Definition of_turn (i : nat) (d : pystr) (ev : event) : Prop :=
  match ev with
  | ModelCalled n _ => n = i
  | Written p _ => p = raw_path d \/ p = json_path d
  | WriteFailed p _ _ => p = raw_path d \/ p = json_path d
  | ParseAttempted _ => True
  end.

(** An event of the end of [main]: a write of one of the two aggregate
    files. *)
Definition of_end (ev : event) : Prop :=
  match ev with
  | Written p _ | WriteFailed p _ _ => p = SCORES_CSV \/ p = SCORES_JSON
  | _ => False
  end.

(** The events of a turn that goes through. *)
Definition turn_events (E : env) (a : args) (i : nat) (pdf : pystr)
    (raw : pystr) (obj : json) : list event :=
  let d := district_of E a i pdf in
  [ ModelCalled i (prompt_at E a i pdf);
    Written (raw_path d) (Text (raw_or_marker raw));
    ParseAttempted raw;
    Written (json_path d) (JsonDump obj) ].

(** A text with no opening brace. *)
Definition no_brace (p : pystr) : bool :=
  forallb (fun c => negb (char_eqb c LBRACE)) p.

(** A text that opens with a brace and closes with one. *)
Definition braced (body : pystr) : pystr := LBRACE :: body ++ [RBRACE].

(** The calls of the model in a log, by their numbers, in order. *)
Fixpoint calls (l : list event) : list nat :=
  match l with
  | [] => []
  | ModelCalled n _ :: r => n :: calls r
  | _ :: r => calls r
  end.

(** The Unicode tables [U] are those of ASCII on the ASCII range. *)
Definition ascii_range (U : casing) : Prop :=
  forall c, (c < 128)%N ->
    is_cased U c = is_cased ascii_casing c
    /\ to_title U c = to_title ascii_casing c
    /\ forall s i, lower_at U s i c = lower_at ascii_casing s i c.

(** * Properties *)

(** ** The model on small inputs *)

Example why_suffix : WHY = [32; 8212; 32; 119; 104; 121]%N.
Proof. reflexivity. Qed.

Example chunk_text_small :
  chunk_text (str "  ab cd   efg h ") 1 = [str "ab cd"; str "efg"; str "h"].
Proof. reflexivity. Qed.

Example decoder_oakville : JsonDecoder.loads oakville_text = Some oakville_reply.
Proof. vm_compute. reflexivity. Qed.

Example decoder_rejects :
  map JsonDecoder.loads [not_json; qstr "[1,]"; qstr "{'a': 1} x"; qstr "01"; []]
  = [None; None; None; None; None].
Proof. vm_compute. reflexivity. Qed.

Example parse_fenced :
  parse_possible_json (scripted [] []) (str "```json
" ++ oakville_text ++ str "
```")
  = Ok oakville_reply.
Proof. vm_compute. reflexivity. Qed.

Example parse_empty : parse_possible_json (scripted [] []) (str "  ") = Raise ValueError.
Proof. reflexivity. Qed.

Example stem_examples :
  map stem [str "plans/a.tar.gz"; str "/x/.hidden"; str "b./"; str "west_valley_plan.pdf"]
  = [str "a.tar"; str ".hidden"; str "b."; str "west_valley_plan"].
Proof. reflexivity. Qed.

(** ** Words and chunks *)

Definition no_space (w : pystr) : bool := forallb (fun c => negb (isspace c)) w.
Definition is_word (w : pystr) : bool := negb (is_nil w) && no_space w.

Lemma no_space_app (u v : pystr) :
  no_space (u ++ v) = no_space u && no_space v.
Proof. apply forallb_app. Qed.

Lemma split_from_words (s : pystr) :
  forall w, no_space w = true -> Forall (fun x => is_word x = true) (split_from w s).
Proof.
  induction s as [|c r IH]; intros w Hw; simpl.
  - destruct w; constructor; [|constructor].
    unfold is_word. now rewrite Hw.
  - destruct (isspace c) eqn:Hc.
    + destruct w as [|a w']; [now apply IH|].
      constructor; [|now apply IH].
      unfold is_word. now rewrite Hw.
    + apply IH. rewrite no_space_app, Hw. simpl. now rewrite Hc.
Qed.

Lemma split_words (s : pystr) : Forall (fun x => is_word x = true) (split s).
Proof. now apply split_from_words. Qed.

Lemma split_from_word (x : pystr) :
  forall w s, no_space x = true -> split_from w (x ++ s) = split_from (w ++ x) s.
Proof.
  induction x as [|c x IH]; intros w s Hx; simpl.
  - now rewrite app_nil_r.
  - simpl in Hx. apply andb_prop in Hx as [Hc Hx].
    apply negb_true_iff in Hc. rewrite Hc, IH by assumption.
    now rewrite <- app_assoc.
Qed.

Lemma join_cons (sep x y : pystr) (r : list pystr) :
  join sep (x :: y :: r) = x ++ sep ++ join sep (y :: r).
Proof. reflexivity. Qed.

Lemma split_from_space (w s : pystr) :
  w <> [] -> split_from w (SPACE :: s) = w :: split_from [] s.
Proof. now destruct w. Qed.

Lemma split_join (buf : list pystr) :
  Forall (fun x => is_word x = true) buf -> split (join [SPACE] buf) = buf.
Proof.
  induction 1 as [|x r Hx Hr IH]; [reflexivity|].
  unfold is_word in Hx. apply andb_prop in Hx as [Hne Hx].
  assert (x <> []) as Hx0 by (now destruct x).
  unfold split in *. destruct r as [|y r].
  - simpl. rewrite <- (app_nil_r x) at 1. rewrite split_from_word by assumption.
    simpl. now destruct x.
  - rewrite join_cons, split_from_word by assumption.
    simpl app. rewrite split_from_space by assumption. f_equal. exact IH.
Qed.

Lemma split_from_nil (s : pystr) :
  forall w, split_from w s = [] -> w = [] /\ forallb isspace s = true.
Proof.
  induction s as [|c r IH]; intros w H; simpl in *.
  - now destruct w.
  - destruct (isspace c).
    + destruct w; [|discriminate]. now destruct (IH [] H).
    + apply IH in H as [H _]. now destruct w.
Qed.

Lemma split_blank (s : pystr) : forallb isspace s = true -> split s = [].
Proof.
  unfold split. induction s as [|c r IH]; simpl; [reflexivity|].
  intros H. apply andb_prop in H as [Hc Hr]. now rewrite Hc, IH.
Qed.

(** The loop keeps the words: those of the closed chunks, then the buffer,
    then the words still to come. *)
Lemma chunk_loop_words (chunk_size : Z) (words : list pystr) :
  forall chunks buf size,
    Forall (fun x => is_word x = true) (buf ++ words) ->
    concat (map split (fst (chunk_loop chunk_size words chunks buf size)))
      ++ snd (chunk_loop chunk_size words chunks buf size)
    = concat (map split chunks) ++ buf ++ words.
Proof.
  induction words as [|w ws IH]; intros chunks buf size H; simpl.
  - now rewrite app_nil_r.
  - replace (buf ++ w :: ws) with ((buf ++ [w]) ++ ws) in *
      by now rewrite <- app_assoc.
    destruct (size + (len w + 1) >=? chunk_size).
    + rewrite IH by (apply Forall_app in H; now apply H).
      rewrite map_app, concat_app. simpl.
      rewrite split_join by (apply Forall_app in H; now apply H).
      now rewrite !app_nil_r, <- !app_assoc.
    + now rewrite IH.
Qed.

Lemma chunk_text_split (s : pystr) (target_tokens : Z) :
  concat (map split (chunk_text s target_tokens)) = split s.
Proof.
  unfold chunk_text.
  pose proof (chunk_loop_words (target_tokens * 4) (split s) [] [] 0 (split_words s)) as H.
  destruct (chunk_loop (target_tokens * 4) (split s) [] [] 0) as [chunks buf] eqn:E.
  simpl in H. destruct buf as [|b buf].
  - now rewrite app_nil_r in H.
  - rewrite map_app, concat_app. cbn [map concat].
    rewrite app_nil_r, split_join; [assumption|].
    pose proof (split_words s) as Hs. rewrite <- H in Hs.
    apply Forall_app in Hs. apply Hs.
Qed.

(** C1: the words of the chunks of [chunk_text s target_tokens], taken in
    order, are the words of [s]; a text with a character that is not
    whitespace gives at least one chunk, and a text of whitespace only (the
    empty one too) gives none.  This holds for every budget, the positive
    ones among them. *)
Theorem chunk_text_keeps_words (s : pystr) (target_tokens : Z) :
  concat (map split (chunk_text s target_tokens)) = split s
  /\ ((exists c, In c s /\ isspace c = false) -> chunk_text s target_tokens <> [])
  /\ (forallb isspace s = true -> chunk_text s target_tokens = []).
Proof.
  split; [apply chunk_text_split|split].
  - intros (c & Hin & Hc) Hnil.
    pose proof (chunk_text_split s target_tokens) as H. rewrite Hnil in H.
    symmetry in H. apply split_from_nil in H as [_ H].
    rewrite forallb_forall in H. specialize (H c Hin). congruence.
  - intros H. unfold chunk_text. now rewrite (split_blank s H).
Qed.

Lemma weight_app (u v : list pystr) : weight (u ++ v) = weight u + weight v.
Proof. induction u as [|w u IH]; simpl; lia. Qed.

Lemma len_app (u v : pystr) : len (u ++ v) = len u + len v.
Proof. unfold len. rewrite length_app. lia. Qed.

(** A joined buffer is one character shorter than its weight: the last word
    has no separator after it. *)
Lemma len_join (buf : list pystr) :
  buf <> [] -> len (join [SPACE] buf) = weight buf - 1.
Proof.
  induction buf as [|x r IH]; [congruence|intros _].
  destruct r as [|y r].
  - simpl. lia.
  - rewrite join_cons, !len_app, IH by discriminate.
    change (weight (x :: y :: r)) with ((len x + 1) + weight (y :: r)).
    change (len [SPACE]) with 1. lia.
Qed.

Lemma chunk_loop_closed (chunk_size : Z) (words : list pystr) :
  forall chunks buf size,
    size = weight buf ->
    Forall (fun c => chunk_size <= len c + 1) chunks ->
    Forall (fun c => chunk_size <= len c + 1)
      (fst (chunk_loop chunk_size words chunks buf size)).
Proof.
  induction words as [|w ws IH]; intros chunks buf size Hsize Hc; simpl;
    [assumption|].
  destruct (size + (len w + 1) >=? chunk_size) eqn:Hge.
  - apply IH; [reflexivity|].
    apply Forall_app. split; [assumption|]. constructor; [|constructor].
    rewrite len_join by (now destruct buf).
    rewrite weight_app. simpl. lia.
  - apply IH; [|assumption]. rewrite weight_app. simpl. lia.
Qed.

Lemma Forall_removelast {A} (P : A -> Prop) (l : list A) :
  Forall P l -> Forall P (removelast l).
Proof.
  induction 1 as [|x l Hx Hl IH]; [constructor|].
  simpl. destruct l; [constructor|]. now constructor.
Qed.

Lemma chunk_text_closed (s : pystr) (target_tokens : Z) :
  Forall (fun c => target_tokens * 4 <= len c + 1)
    (removelast (chunk_text s target_tokens)).
Proof.
  unfold chunk_text.
  pose proof (chunk_loop_closed (target_tokens * 4) (split s) [] [] 0 eq_refl
                (Forall_nil _)) as H.
  destruct (chunk_loop (target_tokens * 4) (split s) [] [] 0) as [chunks buf].
  simpl in H. destruct buf as [|b buf].
  - now apply Forall_removelast.
  - now rewrite removelast_last.
Qed.

(** C4, as the code has it: with the default budget of 1200 tokens, every
    chunk but the last is at least 4799 characters long.  The counter that
    closes a chunk at 4800 counts one separator for every word, and the chunk
    holds one separator fewer than it has words. *)
Theorem chunk_text_default_length (s : pystr) :
  Forall (fun c => 4799 <= len c)
    (removelast (chunk_text s DEFAULT_TARGET_TOKENS)).
Proof.
  pose proof (chunk_text_closed s DEFAULT_TARGET_TOKENS) as H.
  eapply Forall_impl; [|exact H].
  unfold DEFAULT_TARGET_TOKENS. intros c Hc. simpl in Hc. lia.
Qed.

Lemma no_space_repeat (c : char) (n : nat) :
  isspace c = false -> no_space (repeat c n) = true.
Proof. intros Hc. induction n as [|n IH]; simpl; [reflexivity|]. now rewrite Hc. Qed.

(** Two words, the first of which fills the budget alone. *)
Lemma chunk_text_two_words (w v : pystr) (target_tokens : Z) :
  is_word w = true -> is_word v = true ->
  target_tokens * 4 <= len w + 1 ->
  len v + 1 < target_tokens * 4 ->
  chunk_text (w ++ [SPACE] ++ v) target_tokens = [w; v].
Proof.
  intros Hw Hv Hfull Hrest.
  assert (split (w ++ [SPACE] ++ v) = [w; v]) as Hsplit.
  { change (w ++ [SPACE] ++ v) with (join [SPACE] [w; v]).
    apply split_join. now repeat constructor. }
  unfold chunk_text. rewrite Hsplit. cbn [chunk_loop app join].
  replace (0 + (len w + 1) >=? target_tokens * 4) with true
    by (symmetry; apply Z.geb_le; lia).
  replace (0 + (len v + 1) >=? target_tokens * 4) with false
    by (symmetry; rewrite Z.geb_leb; apply Z.leb_gt; lia).
  reflexivity.
Qed.

(** C4 fails as stated: a word of 4799 letters closes the first chunk (the
    counter is at 4800), and that chunk is 4799 characters long. *)
Lemma chunk_text_default_length_4800_fails :
  exists c,
    In c (removelast (chunk_text long_word_text DEFAULT_TARGET_TOKENS))
    /\ len c < 4800.
Proof.
  assert (len (repeat 97%N 4799) = 4799) as Hlen
    by (unfold len; now rewrite repeat_length).
  exists (repeat 97%N 4799). split; [|lia].
  assert (chunk_text long_word_text DEFAULT_TARGET_TOKENS
          = [repeat 97%N 4799; [98%N]]) as ->.
  { apply (chunk_text_two_words (repeat 97%N 4799) [98%N] 1200).
    - unfold is_word. now rewrite no_space_repeat.
    - reflexivity.
    - rewrite Hlen. lia.
    - unfold len. simpl. lia. }
  now left.
Qed.

(** ** The page cap *)

(** C9, as the code has it: for a positive [--max-pages n], [read_pdf_text]
    goes through the first [n] pages of the document (all of them when it
    has fewer), so through at most [n]. *)
Theorem pages_read_cap (reader_pages : list page) (n : Z) :
  0 < n ->
  pages_read reader_pages (Some n) = firstn (Z.to_nat n) reader_pages
  /\ Z.of_nat (List.length (pages_read reader_pages (Some n)))
     = Z.min n (Z.of_nat (List.length reader_pages)).
Proof.
  intros Hn. unfold pages_read, or_else, slice_to.
  replace (n =? 0) with false by (symmetry; apply Z.eqb_neq; lia).
  replace (n <? 0) with false by (symmetry; apply Z.ltb_ge; lia).
  split; [reflexivity|]. rewrite length_firstn. lia.
Qed.

Lemma pages_read_cap_witness :
  pages_read three_pages (Some 2) = firstn 2 three_pages
  /\ Z.of_nat (List.length (pages_read three_pages (Some 2))) = 2.
Proof. apply (pages_read_cap three_pages 2). lia. Defined.

(** C9 fails as stated for the supplied values 0 and -1: with
    [--max-pages 0] all three pages of a document are read, and with
    [--max-pages -1] two of them. *)
Lemma pages_read_cap_zero_fails :
  pages_read three_pages (Some 0) = three_pages
  /\ 0 < Z.of_nat (List.length (pages_read three_pages (Some 0)))
  /\ -1 < Z.of_nat (List.length (pages_read three_pages (Some (-1)))).
Proof. repeat split. Qed.

(** ** District names *)

Lemma title_from_ascii (U : casing) (whole : pystr) :
  ascii_range U ->
  forall s i b,
    Forall (fun c => (c < 128)%N) s ->
    title_from U whole i b s = title_from ascii_casing whole i b s.
Proof.
  intros HU. induction s as [|c r IH]; intros i b Hs; [reflexivity|].
  inversion Hs as [|? ? Hc Hr]; subst. simpl.
  destruct (HU c Hc) as (Hcased & Htitle & Hlower).
  rewrite Hcased, Htitle, Hlower, IH by assumption. reflexivity.
Qed.

(** C8: the district of the [i]-th document is the [i]-th supplied name
    when there is one, and otherwise the stem of the file name with its
    underscores turned into spaces, in title case; with no names supplied,
    [west_valley_plan.pdf] gives [West Valley Plan]. *)
Theorem pick_district_policy (U : casing) (names : option (list pystr))
    (i : nat) (pdf : pystr) :
  ascii_range U ->
  pick_district U names i pdf
  = match names with
    | Some l =>
        match nth_error l i with
        | Some d => d
        | None => title U (replace UNDERSCORE SPACE (stem pdf))
        end
    | None => title U (replace UNDERSCORE SPACE (stem pdf))
    end
  /\ pick_district U None i (str "west_valley_plan.pdf") = str "West Valley Plan".
Proof.
  intros HU. split.
  - unfold pick_district, derived_name. destruct names as [l|]; [|reflexivity].
    destruct (i <? List.length l)%nat eqn:Hi.
    + apply Nat.ltb_lt in Hi. destruct l as [|d l]; [simpl in Hi; lia|].
      cbn [is_nil negb andb].
      destruct (nth_error (d :: l) i) as [x|] eqn:Hn.
      * now apply nth_error_nth.
      * apply nth_error_None in Hn. lia.
    + apply Nat.ltb_ge in Hi. rewrite andb_false_r.
      now rewrite (proj2 (nth_error_None l i) Hi).
  - unfold pick_district, derived_name, title.
    rewrite (title_from_ascii U _ HU) by (vm_compute; repeat constructor).
    reflexivity.
Qed.

Lemma ascii_range_ascii : ascii_range ascii_casing.
Proof. intros c _. repeat split. Qed.

Lemma pick_district_policy_witness :
  pick_district ascii_casing (Some [str "Oakville"]) 1 (str "plans/west_valley_plan.pdf")
  = str "West Valley Plan"
  /\ pick_district ascii_casing None 1 (str "west_valley_plan.pdf")
     = str "West Valley Plan".
Proof.
  exact (pick_district_policy ascii_casing (Some [str "Oakville"]) 1
           (str "plans/west_valley_plan.pdf") ascii_range_ascii).
Defined.

(** ** Rows *)

Lemma pystr_eqb_eq (a b : pystr) : pystr_eqb a b = true <-> a = b.
Proof.
  revert b. induction a as [|x a IH]; intros [|y b]; simpl; split;
    try congruence; try discriminate.
  - intros H. apply andb_prop in H as [Hx Ha].
    apply N.eqb_eq in Hx. apply IH in Ha. congruence.
  - intros H. injection H as -> ->. unfold char_eqb.
    rewrite N.eqb_refl. now apply IH.
Qed.

Lemma pystr_eqb_refl (a : pystr) : pystr_eqb a a = true.
Proof. now apply pystr_eqb_eq. Qed.

Lemma pystr_eqb_neq (a b : pystr) : pystr_eqb a b = false <-> a <> b.
Proof.
  rewrite <- pystr_eqb_eq. destruct (pystr_eqb a b); split; congruence.
Qed.

Lemma mem_In (k : pystr) (l : list pystr) : mem k l = true <-> In k l.
Proof.
  induction l as [|x r IH]; simpl; [split; [discriminate|tauto]|].
  rewrite orb_true_iff, pystr_eqb_eq, IH. tauto.
Qed.

Lemma distinct_NoDup (l : list pystr) : distinct l = true <-> NoDup l.
Proof.
  induction l as [|x r IH]; simpl; [split; [constructor|reflexivity]|].
  rewrite andb_true_iff, negb_true_iff, IH. split.
  - intros [Hx Hr]. constructor; [|assumption].
    rewrite <- mem_In. congruence.
  - intros H. inversion H as [|? ? Hx Hr]; subst. split; [|assumption].
    destruct (mem x r) eqn:Hm; [|reflexivity]. now apply mem_In in Hm.
Qed.

(** Assigning to a key that the dict does not have appends the pair. *)
Lemma dict_set_fresh (d : dict) (k : pystr) (v : json) :
  ~ In k (keys d) -> dict_set d k v = d ++ [(k, v)].
Proof.
  induction d as [|[k' v'] r IH]; simpl; intros H; [reflexivity|].
  destruct (pystr_eqb k' k) eqn:Hk.
  - apply pystr_eqb_eq in Hk. tauto.
  - rewrite IH; tauto.
Qed.

(** Assigning to a key adds at most that key. *)
Lemma keys_dict_set (d : dict) (k : pystr) (v : json) (c : pystr) :
  In c (keys (dict_set d k v)) <-> In c (keys d) \/ c = k.
Proof.
  induction d as [|[k' v'] r IH]; simpl.
  - intuition congruence.
  - destruct (pystr_eqb k' k) eqn:Hk; simpl.
    + apply pystr_eqb_eq in Hk. subst. intuition congruence.
    + rewrite IH. tauto.
Qed.

Lemma to_rows_loop_flat (its : dict) :
  forall row,
    Forall has_score_and_why its ->
    NoDup (keys row ++ flat_map column_names (keys its)) ->
    to_rows_loop its row = Ok (row ++ flat_map columns its).
Proof.
  induction its as [|[k v] rest IH]; intros row Hits Hnd; simpl.
  - now rewrite app_nil_r.
  - inversion Hits as [|? ? (score & why & Hs & Hw) Hrest]; subst.
    simpl in Hs, Hw. unfold columns. simpl. rewrite Hs, Hw. simpl.
    simpl in Hnd.
    assert (~ In k (keys row)) as Hk.
    { intros Hin. apply NoDup_remove_2 in Hnd. apply Hnd.
      apply in_or_app. now left. }
    rewrite (dict_set_fresh row k score Hk).
    assert (~ In (k ++ WHY) (keys (row ++ [(k, score)]))) as Hkw.
    { unfold keys. rewrite map_app. simpl. intros Hin.
      apply in_app_or in Hin as [Hin|[Hin|[]]].
      - apply NoDup_remove_1 in Hnd.
        apply NoDup_remove_2 in Hnd. apply Hnd. apply in_or_app. now left.
      - apply NoDup_remove_2 in Hnd. apply Hnd. apply in_or_app. right.
        left. now symmetry. }
    rewrite (dict_set_fresh _ (k ++ WHY) why Hkw).
    rewrite IH; [now rewrite <- !app_assoc|assumption|].
    unfold keys in *. rewrite !map_app. simpl.
    rewrite <- !app_assoc. simpl. exact Hnd.
Qed.

(** C7, as the code has it: for a reply with a [district] and a [scores]
    mapping whose entries all have [score] and [justification], and whose
    column names (the district column, every category, every category
    followed by the suffix) are pairwise distinct, [to_rows] returns exactly
    one Row: the district, then for every entry in the order of the mapping
    the category with the score and the suffixed category with the
    justification. *)
Theorem to_rows_flat (obj district : json) (scores : dict) :
  getitem obj (str "district") = Ok district ->
  getitem obj (str "scores") = Ok (JDict scores) ->
  Forall has_score_and_why scores ->
  distinct (str "district" :: flat_map column_names (keys scores)) = true ->
  to_rows obj = Ok [flat_row district scores].
Proof.
  intros Hd Hs Hentries Hdistinct. unfold to_rows. rewrite Hd. simpl.
  rewrite Hs. simpl. rewrite to_rows_loop_flat; [reflexivity|assumption|].
  now apply distinct_NoDup.
Qed.

(** The example of the specification. *)
Lemma to_rows_flat_witness :
  to_rows oakville_reply
  = Ok [ [ (str "district", JStr (str "Oakville"));
           (str "Energy Efficiency & Resilience", JInt 3);
           (str "Energy Efficiency & Resilience — why", JStr (str "ok")) ] ].
Proof.
  refine (to_rows_flat oakville_reply (JStr (str "Oakville")) _ eq_refl eq_refl _ eq_refl).
  constructor; [|constructor]. exists (JInt 3), (JStr (str "ok")). now split.
Defined.

(** C7 fails as stated when a category has the name of a column made for
    something else: a category named [district] takes the place of the
    district in the Row. *)
Lemma to_rows_district_shadowed :
  getitem shadowing_reply (str "district") = Ok (JStr (str "Oakville"))
  /\ to_rows shadowing_reply
     = Ok [ [ (str "district", JInt 3); (str "district — why", JStr (str "ok")) ] ].
Proof. split; reflexivity. Qed.

Lemma to_rows_loop_keys (its : dict) :
  forall row row',
    to_rows_loop its row = Ok row' ->
    forall c,
      In c (keys row')
      <-> In c (keys row) \/ exists k, In k (keys its) /\ In c (column_names k).
Proof.
  induction its as [|[k v] rest IH]; intros row row' H c; simpl in H.
  - injection H as <-. split; [tauto|]. intros [Hc|(k & [] & _)]. exact Hc.
  - destruct (getitem v (str "score")) as [score|]; [|discriminate].
    destruct (getitem v (str "justification")) as [why|]; [|discriminate].
    simpl in H. rewrite (IH _ _ H c), !keys_dict_set. simpl. split.
    + intros [[[Hc|Hc]|Hc]|(k' & Hk' & Hc)].
      * now left.
      * right. exists k. split; [now left|]. now left.
      * right. exists k. split; [now left|]. right. now left.
      * right. exists k'. split; [now right|assumption].
    + intros [Hc|(k' & [Hk'|Hk'] & Hc)].
      * left. left. now left.
      * subst k'. destruct Hc as [Hc|[Hc|[]]]; subst c; tauto.
      * right. now exists k'.
Qed.

(** A Row has the district column and the two columns of every key that the
    reply has under [scores], and no other. *)
Lemma to_rows_columns (obj : json) (rows : list dict) :
  to_rows obj = Ok rows ->
  exists row scores,
    rows = [row]
    /\ getitem obj (str "scores") = Ok (JDict scores)
    /\ forall c,
         In c (keys row)
         <-> c = str "district" \/ exists k, In k (keys scores) /\ In c (column_names k).
Proof.
  unfold to_rows. intros H.
  destruct (getitem obj (str "district")) as [d|]; [|discriminate].
  simpl in H. destruct (getitem obj (str "scores")) as [[| | | | | |scores]|];
    try discriminate.
  simpl in H.
  destruct (to_rows_loop scores [(str "district", d)]) as [row|] eqn:Hloop;
    [|discriminate].
  injection H as <-. exists row, scores. repeat split; try reflexivity.
  - intros Hc. apply (to_rows_loop_keys _ _ _ Hloop) in Hc as [[Hc|[]]|Hc];
      [now left|now right].
  - intros Hc. apply (to_rows_loop_keys _ _ _ Hloop).
    destruct Hc as [->|Hc]; [left; now left|now right].
Qed.

(** ** Files *)




Lemma file_at_app (E : env) (out : pystr) (l1 l2 : list event) (path : pystr) :
  file_at E out (l1 ++ l2) path
  = match file_at E out l2 path with
    | Some c => Some c
    | None => file_at E out l1 path
    end.
Proof.
  induction l1 as [|ev l1 IH]; simpl.
  - now destruct (file_at E out l2 path).
  - rewrite IH. now destruct (file_at E out l2 path).
Qed.


Lemma split_on_plain (sep : char) (s : pystr) :
  ~ In sep s -> forall cur, split_on sep cur s = [cur ++ s].
Proof.
  induction s as [|c s IH]; intros Hs cur; simpl.
  - now rewrite app_nil_r.
  - destruct (char_eqb c sep) eqn:Hc.
    + apply N.eqb_eq in Hc. subst. exfalso. apply Hs. now left.
    + rewrite IH by (intros H; apply Hs; now right). now rewrite <- app_assoc.
Qed.

Lemma rfind_none (c : char) (s : pystr) : ~ In c s -> rfind c s = None.
Proof.
  induction s as [|x s IH]; intros Hs; simpl; [reflexivity|].
  rewrite IH by (intros H; apply Hs; now right).
  destruct (char_eqb x c) eqn:Hx; [|reflexivity].
  apply N.eqb_eq in Hx. subst. exfalso. apply Hs. now left.
Qed.

Lemma rfind_last (c : char) (x y : pystr) :
  ~ In c y -> rfind c (x ++ c :: y) = Some (List.length x).
Proof.
  intros Hy. induction x as [|z x IH]; simpl.
  - rewrite (rfind_none c y Hy). unfold char_eqb. now rewrite N.eqb_refl.
  - now rewrite IH.
Qed.















(** ** The batch loop *)

Ltac turn_step :=
  cbv beta iota; unfold emit, extend_rows; cbn [log all_rows fst snd];
  rewrite <- ?app_assoc; cbn [app].

Ltac own_events :=
  repeat (apply Forall_cons; [simpl; tauto|]); apply Forall_nil.

Section Batch.

Variable E : env.
Variable a : args.

Lemma write_rows (st : state) (path : pystr) (c : content) :
  all_rows (fst (write E a st path c)) = all_rows st.
Proof. unfold write. now destruct (write_file E (log st) _ c). Qed.


(** The turn of a document, case by case. *)
Lemma body_cases (i : nat) (pdf : pystr) (st : state) :
  match PdfReader E pdf with
  | None => body E a i pdf st = (st, Raised PdfReadError)
  | Some _ =>
      match call_model E i (model a) SYSTEM_PROMPT (prompt_at E a i pdf) with
      | Raise e =>
          body E a i pdf st = (emit st (ModelCalled i (prompt_at E a i pdf)), Raised e)
      | Ok raw =>
          match raw_write E a i pdf st raw with
          | Failed e remains =>
              body E a i pdf st
              = ({| log := log st
                           ++ [ ModelCalled i (prompt_at E a i pdf);
                                WriteFailed (raw_path (district_of E a i pdf)) e remains ];
                    all_rows := all_rows st |}, Raised e)
          | Stored =>
              match parse_possible_json E raw with
              | Raise e =>
                  body E a i pdf st
                  = ({| log := log st
                               ++ [ ModelCalled i (prompt_at E a i pdf);
                                    Written (raw_path (district_of E a i pdf))
                                      (Text (raw_or_marker raw));
                                    ParseAttempted raw ];
                        all_rows := all_rows st |},
                     Raised (raised_by_handler E a i pdf e))
              | Ok obj =>
                  match json_write E a i pdf st raw obj with
                  | Failed e remains =>
                      body E a i pdf st
                      = ({| log := log st
                                   ++ [ ModelCalled i (prompt_at E a i pdf);
                                        Written (raw_path (district_of E a i pdf))
                                          (Text (raw_or_marker raw));
                                        ParseAttempted raw;
                                        WriteFailed (json_path (district_of E a i pdf))
                                          e remains ];
                            all_rows := all_rows st |}, Raised e)
                  | Stored =>
                      match to_rows obj with
                      | Raise e =>
                          body E a i pdf st
                          = ({| log := log st ++ turn_events E a i pdf raw obj;
                                all_rows := all_rows st |}, Raised e)
                      | Ok rows =>
                          body E a i pdf st
                          = ({| log := log st ++ turn_events E a i pdf raw obj;
                                all_rows := all_rows st ++ rows |}, Done)
                      end
                  end
              end
          end
      end
  end.
Proof.
  unfold body, raw_write, json_write, turn_events, prompt_at, raised_by_handler,
    district_of, write.
  destruct (PdfReader E pdf) as [reader_pages|]; [|reflexivity].
  destruct (call_model E i (model a) SYSTEM_PROMPT _) as [raw|]; [|reflexivity].
  turn_step.
  destruct (write_file E _ _ (Text (raw_or_marker raw))) as [|e remains];
    turn_step; [|reflexivity].
  destruct (parse_possible_json E raw) as [obj|]; turn_step;
    [|now destruct (print E _)].
  destruct (write_file E _ _ (JsonDump obj)) as [|e remains];
    turn_step; [|reflexivity].
  destruct (to_rows obj); turn_step; reflexivity.
Qed.


(** Whatever its outcome, a turn adds events of its own document only. *)
Lemma body_events (i : nat) (pdf : pystr) (st : state) :
  exists evs,
    log (fst (body E a i pdf st)) = log st ++ evs
    /\ Forall (of_turn i (district_of E a i pdf)) evs.
Proof.
  pose proof (body_cases i pdf st) as H.
  destruct (PdfReader E pdf) as [reader_pages|].
  2:{ rewrite H. exists []. simpl. now rewrite app_nil_r. }
  destruct (call_model E i (model a) SYSTEM_PROMPT (prompt_at E a i pdf)) as [raw|].
  2:{ rewrite H. eexists. split; [reflexivity|]. own_events. }
  destruct (raw_write E a i pdf st raw).
  2:{ rewrite H. eexists. split; [reflexivity|]. own_events. }
  destruct (parse_possible_json E raw) as [obj|].
  2:{ rewrite H. eexists. split; [reflexivity|]. own_events. }
  destruct (json_write E a i pdf st raw obj).
  2:{ rewrite H. eexists. split; [reflexivity|]. own_events. }
  destruct (to_rows obj); rewrite H; (eexists; split; [reflexivity|]);
    unfold turn_events; own_events.
Qed.

Lemma body_rows (i : nat) (pdf : pystr) (st : state) :
  all_rows (fst (body E a i pdf st)) = all_rows st
  \/ exists raw obj row,
       parse_possible_json E raw = Ok obj
       /\ to_rows obj = Ok [row]
       /\ all_rows (fst (body E a i pdf st)) = all_rows st ++ [row].
Proof.
  pose proof (body_cases i pdf st) as H.
  destruct (PdfReader E pdf); [|rewrite H; now left].
  destruct (call_model E i (model a) SYSTEM_PROMPT _) as [raw|]; [|rewrite H; now left].
  destruct (raw_write E a i pdf st _); [|rewrite H; now left].
  destruct (parse_possible_json E _) as [obj|] eqn:Hobj; [|rewrite H; now left].
  destruct (json_write E a i pdf st _ _); [|rewrite H; now left].
  destruct (to_rows _) as [rows|] eqn:Hrows; [|rewrite H; now left].
  destruct (to_rows_columns _ _ Hrows) as (row & scores & -> & _).
  rewrite H. right. now exists raw, obj, row.
Qed.


Lemma loop_app (docs1 docs2 : list pystr) :
  forall i st,
    loop E a i (docs1 ++ docs2) st
    = match loop E a i docs1 st with
      | (st1, Done) => loop E a (i + List.length docs1) docs2 st1
      | (st1, Raised e) => (st1, Raised e)
      end.
Proof.
  induction docs1 as [|pdf docs1 IH]; intros i st; simpl.
  - now rewrite Nat.add_0_r.
  - destruct (body E a i pdf st) as [st1 [|e]]; [|reflexivity].
    rewrite IH. now rewrite Nat.add_succ_r.
Qed.


(** The events of the loop over [docs] belong to the turns of [docs]. *)
Lemma loop_events (docs : list pystr) :
  forall i st,
    exists evs,
      log (fst (loop E a i docs st)) = log st ++ evs
      /\ Forall (fun ev => exists j d,
                   (i <= j < i + List.length docs)%nat
                   /\ In d (districts E a i docs) /\ of_turn j d ev) evs.
Proof.
  induction docs as [|pdf rest IH]; intros i st; simpl.
  - exists []. split; [now rewrite app_nil_r|constructor].
  - destruct (body_events i pdf st) as (evs1 & Hlog1 & Hevs1).
    assert (Forall (fun ev => exists j d,
                      (i <= j < i + S (List.length rest))%nat
                      /\ In d (district_of E a i pdf :: districts E a (S i) rest)
                      /\ of_turn j d ev) evs1) as Hevs1'.
    { eapply Forall_impl; [|exact Hevs1]. intros ev Hev.
      exists i, (district_of E a i pdf). repeat split; [lia|lia|now left|assumption]. }
    destruct (body E a i pdf st) as [st1 [|e]]; simpl in Hlog1.
    + destruct (IH (S i) st1) as (evs2 & Hlog2 & Hevs2).
      exists (evs1 ++ evs2). split; [now rewrite Hlog2, Hlog1, app_assoc|].
      apply Forall_app. split; [assumption|].
      eapply Forall_impl; [|exact Hevs2]. intros ev (j & d & Hj & Hd & Hev).
      exists j, d. repeat split; [lia|lia|now right|assumption].
    + exists evs1. now split.
Qed.



Lemma loop_rows_invariant (P : dict -> Prop) (docs : list pystr) :
  (forall raw obj row,
      parse_possible_json E raw = Ok obj -> to_rows obj = Ok [row] -> P row) ->
  forall i st,
    Forall P (all_rows st) -> Forall P (all_rows (fst (loop E a i docs st))).
Proof.
  intros HP. induction docs as [|pdf rest IH]; intros i st Hst; simpl;
    [assumption|].
  pose proof (body_rows i pdf st) as Hrows.
  destruct (body E a i pdf st) as [st1 [|e]]; simpl in Hrows.
  - apply IH. destruct Hrows as [->|(raw & obj & row & Hobj & Hrow & ->)];
      [assumption|].
    apply Forall_app. split; [assumption|]. constructor; [|constructor].
    now apply (HP raw obj row).
  - simpl. destruct Hrows as [->|(raw & obj & row & Hobj & Hrow & ->)];
      [assumption|].
    apply Forall_app. split; [assumption|]. constructor; [|constructor].
    now apply (HP raw obj row).
Qed.

(** The end of [main], case by case. *)
Lemma main_cases :
  match loop E a O (pdfs a) initial with
  | (st, Raised e) => main E a = (st, Raised e)
  | (st, Done) =>
      let csv := CsvDump (all_rows st) in
      let all := JsonDump (JList (map JDict (all_rows st))) in
      match write_file E (log st) (file_of (out a) SCORES_CSV) csv with
      | Failed e remains =>
          main E a
          = ({| log := log st ++ [WriteFailed SCORES_CSV e remains];
                all_rows := all_rows st |}, Raised e)
      | Stored =>
          match write_file E (log st ++ [Written SCORES_CSV csv])
                  (file_of (out a) SCORES_JSON) all with
          | Failed e remains =>
              main E a
              = ({| log := log st
                           ++ [Written SCORES_CSV csv; WriteFailed SCORES_JSON e remains];
                    all_rows := all_rows st |}, Raised e)
          | Stored =>
              main E a
              = ({| log := log st ++ [Written SCORES_CSV csv; Written SCORES_JSON all];
                    all_rows := all_rows st |},
                 match print E (DoneWrote (file_of (out a) SCORES_CSV)) with
                 | Some e => Raised e
                 | None => Done
                 end)
          end
      end
  end.
Proof.
  unfold main, write.
  destruct (loop E a O (pdfs a) initial) as [st [|e]]; [|reflexivity].
  cbv zeta.
  destruct (write_file E (log st) _ _) as [|e remains]; turn_step; [|reflexivity].
  destruct (write_file E _ _ _) as [|e remains]; turn_step; [|reflexivity].
  now destruct (print E _).
Qed.

Lemma main_events :
  exists evs,
    log (fst (main E a)) = log (fst (loop E a O (pdfs a) initial)) ++ evs
    /\ all_rows (fst (main E a)) = all_rows (fst (loop E a O (pdfs a) initial))
    /\ Forall of_end evs
    /\ (snd (loop E a O (pdfs a) initial) <> Done ->
        main E a = loop E a O (pdfs a) initial).
Proof.
  pose proof main_cases as H.
  destruct (loop E a O (pdfs a) initial) as [st [|e]].
  2:{ rewrite H. exists []. simpl. rewrite app_nil_r. repeat split. constructor. }
  cbv zeta in H.
  destruct (write_file E (log st) _ _) as [|e remains].
  2:{ rewrite H. eexists. split; [reflexivity|]. split; [reflexivity|].
      split; [|now intros []]. repeat (apply Forall_cons; [simpl; tauto|]).
      apply Forall_nil. }
  destruct (write_file E _ _ _) as [|e remains]; rewrite H;
    (eexists; split; [reflexivity|]; split; [reflexivity|];
     split; [|now intros []]);
    repeat (apply Forall_cons; [simpl; tauto|]); apply Forall_nil.
Qed.



End Batch.

(** C2, as the code has it: in every run, every Row of the accumulator is
    the projection of a parsed reply, and its columns are the district column
    and the two columns of every key that this reply has under [scores], and
    no other; they are the fifteen columns of the rubric when those keys are
    the seven categories. *)
Theorem rows_columns_follow_reply (E : env) (a : args) :
  Forall (fun row =>
            exists raw obj scores,
              parse_possible_json E raw = Ok obj
              /\ to_rows obj = Ok [row]
              /\ getitem obj (str "scores") = Ok (JDict scores)
              /\ (forall c,
                     In c (keys row)
                     <-> c = str "district"
                         \/ exists k, In k (keys scores) /\ In c (column_names k))
              /\ ((forall k, In k (keys scores) <-> In k CATEGORIES) ->
                  forall c, In c (keys row) <-> In c SCHEMA))
    (all_rows (fst (main E a))).
Proof.
  destruct (main_events E a) as (evs & _ & -> & _).
  apply loop_rows_invariant; [|constructor].
  intros raw obj row Hobj Hrow.
  destruct (to_rows_columns _ _ Hrow) as (row' & scores & [= <-] & Hscores & Hcols).
  exists raw, obj, scores. repeat split; try assumption; try apply Hcols.
  - intros Hc. apply Hcols in Hc as [->|(k & Hk & Hc)]; [now left|].
    right. unfold SCHEMA. apply in_flat_map. exists k. split; [|assumption].
    now apply H.
  - intros Hc. apply Hcols. destruct Hc as [<-|Hc]; [now left|].
    right. apply in_flat_map in Hc as (k & Hk & Hc). exists k.
    split; [|assumption]. now apply H.
Qed.

(** C2 fails as stated: the reply of the Row Projector example has one
    category, and the Row of a run on it has three columns, not the fifteen
    of the rubric. *)
Lemma rows_columns_not_fixed :
  exists st,
    main (scripted three_pages [oakville_text]) (run_args [str "oakville.pdf"] None)
    = (st, Done)
    /\ map keys (all_rows st)
       = [ [ str "district";
             str "Energy Efficiency & Resilience";
             str "Energy Efficiency & Resilience — why" ] ]
    /\ List.length SCHEMA = 15%nat.
Proof.
  exists (fst (main (scripted three_pages [oakville_text])
                 (run_args [str "oakville.pdf"] None))).
  split; [vm_compute; reflexivity|]. split; reflexivity.
Qed.










(** ** The reply parser *)

Lemma lstrip_app_head (p x : pystr) (c : char) :
  isspace c = false -> lstrip (p ++ c :: x) = lstrip p ++ c :: x.
Proof.
  intros Hc. induction p as [|b p IH]; simpl.
  - now rewrite Hc.
  - now destruct (isspace b).
Qed.

Lemma lstrip_blank (ws : pystr) : forallb isspace ws = true -> lstrip ws = [].
Proof.
  induction ws as [|b ws IH]; simpl; [reflexivity|].
  intros H. apply andb_prop in H as [Hb Hws]. rewrite Hb. now apply IH.
Qed.

Lemma forallb_rev {A} (f : A -> bool) (l : list A) :
  forallb f l = true -> forallb f (rev l) = true.
Proof.
  rewrite !forallb_forall. intros H x Hx. apply H. now apply in_rev.
Qed.

Lemma rstrip_tail (q ws : pystr) (c : char) :
  isspace c = false -> forallb isspace ws = true ->
  rstrip (q ++ [c] ++ ws) = q ++ [c].
Proof.
  intros Hc Hws. unfold rstrip. rewrite !rev_app_distr. simpl.
  rewrite <- app_assoc. simpl. rewrite lstrip_app_head by assumption.
  rewrite (lstrip_blank (rev ws)) by now apply forallb_rev.
  simpl. now rewrite rev_involutive.
Qed.

(** Stripping a text that ends with a braced part and whitespace. *)
Lemma strip_braced (p body ws : pystr) :
  forallb isspace ws = true ->
  strip (p ++ braced body ++ ws) = lstrip p ++ braced body.
Proof.
  intros Hws. unfold strip, braced. simpl.
  rewrite lstrip_app_head by reflexivity.
  replace (lstrip p ++ LBRACE :: (body ++ [RBRACE]) ++ ws)
    with ((lstrip p ++ LBRACE :: body) ++ [RBRACE] ++ ws)
    by (now rewrite <- !app_assoc).
  rewrite rstrip_tail by (reflexivity || assumption).
  now rewrite <- app_assoc.
Qed.

Lemma no_brace_lstrip (p : pystr) : no_brace p = true -> no_brace (lstrip p) = true.
Proof.
  induction p as [|b p IH]; simpl; [reflexivity|].
  intros H. destruct (isspace b); [|exact H].
  apply andb_prop in H as [_ H]. now apply IH.
Qed.

Lemma neq_by_last (q t : pystr) (c : char) :
  last t 0%N <> c -> pystr_eqb (q ++ [c]) t = false.
Proof.
  intros H. apply pystr_eqb_neq. intros Heq. apply H. rewrite <- Heq.
  apply last_last.
Qed.

(** No closing fence is found in a text that ends with a closing brace. *)
Lemma closing_fence_none (q : pystr) : closing_fence (q ++ [RBRACE]) = None.
Proof.
  unfold closing_fence. rewrite lstrip_app_head by reflexivity.
  now rewrite !neq_by_last by (vm_compute; discriminate).
Qed.

Lemma sub_closing_fence_braced (q : pystr) :
  sub_closing_fence (q ++ [RBRACE]) = q ++ [RBRACE].
Proof.
  induction q as [|x q IH].
  - pose proof (closing_fence_none []) as H. cbn [app] in H.
    cbn [app sub_closing_fence]. now rewrite H.
  - change ((x :: q) ++ [RBRACE]) with (x :: (q ++ [RBRACE])).
    cbn [sub_closing_fence].
    change (x :: (q ++ [RBRACE])) with ((x :: q) ++ [RBRACE]).
    rewrite closing_fence_none. simpl. now rewrite IH.
Qed.

Lemma startswith_before_brace (pre : pystr) :
  no_brace pre = true ->
  forall p x, startswith pre (p ++ LBRACE :: x) = true -> exists p', p = pre ++ p'.
Proof.
  induction pre as [|b pre IH]; intros Hpre p x H; [now exists p|].
  simpl in Hpre. apply andb_prop in Hpre as [Hb Hpre].
  destruct p as [|c p]; simpl in H; apply andb_prop in H as [Hc H].
  - unfold char_eqb in *. rewrite Hc in Hb. discriminate.
  - apply N.eqb_eq in Hc. subst c.
    destruct (IH Hpre p x H) as (p' & ->). now exists p'.
Qed.

Lemma skipn_prefix {A} (l r : list A) : skipn (List.length l) (l ++ r) = r.
Proof. induction l as [|x l IH]; [reflexivity|exact IH]. Qed.

(** The wrappers are taken off the prose only. *)
Lemma sub_wrappers_braced (p body : pystr) :
  no_brace p = true ->
  exists p', no_brace p' = true /\ sub_wrappers (p ++ braced body) = p' ++ braced body.
Proof.
  intros Hp. unfold sub_wrappers, braced.
  destruct (startswith FENCE_JSON (p ++ LBRACE :: body ++ [RBRACE])) eqn:Hfence.
  - apply startswith_before_brace in Hfence as (p1 & ->); [|reflexivity].
    unfold no_brace in Hp. rewrite forallb_app in Hp.
    apply andb_prop in Hp as [_ Hp1].
    exists (lstrip p1). split; [now apply no_brace_lstrip|].
    rewrite <- app_assoc, skipn_prefix, lstrip_app_head by reflexivity.
    replace (lstrip p1 ++ LBRACE :: body ++ [RBRACE])
      with ((lstrip p1 ++ LBRACE :: body) ++ [RBRACE])
      by (now rewrite <- app_assoc).
    apply sub_closing_fence_braced.
  - exists p. split; [assumption|].
    replace (p ++ LBRACE :: body ++ [RBRACE]) with ((p ++ LBRACE :: body) ++ [RBRACE])
      by (now rewrite <- app_assoc).
    apply sub_closing_fence_braced.
Qed.

Lemma closes_at_end_last (q : pystr) : closes_at_end (q ++ [RBRACE]) = true.
Proof.
  induction q as [|x q IH]; [reflexivity|].
  simpl. rewrite IH. apply orb_true_r.
Qed.

(** The search skips prose that has no brace and stops at the object. *)
Lemma search_object_braced (p body : pystr) :
  no_brace p = true -> search_object (p ++ braced body) = Some (braced body).
Proof.
  induction p as [|b p IH]; intros Hp.
  - unfold braced. simpl. now rewrite closes_at_end_last.
  - simpl in Hp. apply andb_prop in Hp as [Hb Hp]. apply negb_true_iff in Hb.
    simpl. rewrite Hb. simpl. now apply IH.
Qed.

Lemma json_candidate_braced (prose body ws : pystr) :
  no_brace prose = true ->
  forallb isspace ws = true ->
  json_candidate (prose ++ braced body ++ ws) = Ok (braced body).
Proof.
  intros Hprose Hws. unfold json_candidate. rewrite strip_braced by assumption.
  destruct (lstrip prose ++ braced body) as [|c0 s0] eqn:Hs.
  { apply app_eq_nil in Hs as [_ Hs]. discriminate. }
  rewrite <- Hs. clear Hs c0 s0.
  destruct (sub_wrappers_braced (lstrip prose) body (no_brace_lstrip _ Hprose))
    as (p2 & Hp2 & ->).
  assert (strip (p2 ++ braced body) = lstrip p2 ++ braced body) as ->.
  { rewrite <- (strip_braced p2 body []) by reflexivity. now rewrite app_nil_r. }
  pose proof (no_brace_lstrip _ Hp2) as Hp3.
  rewrite (search_object_braced _ body Hp3).
  destruct (lstrip p2) as [|c p3]; [reflexivity|].
  simpl in Hp3. apply andb_prop in Hp3 as [Hc _].
  apply negb_true_iff in Hc. cbn [app startswith]. unfold char_eqb in *.
  rewrite N.eqb_sym, Hc. reflexivity.
Qed.

(** C3, as the code has it: for prose without an opening brace followed by
    a text that opens and closes with a brace and that the decoder accepts,
    and then whitespace only, [parse_possible_json] hands exactly that text
    to the decoder and returns the object. *)
Theorem parse_trailing_object (E : env) (prose body ws : pystr) (obj : json) :
  no_brace prose = true ->
  forallb isspace ws = true ->
  json_loads E (braced body) = Some obj ->
  json_candidate (prose ++ braced body ++ ws) = Ok (braced body)
  /\ parse_possible_json E (prose ++ braced body ++ ws) = Ok obj.
Proof.
  intros Hprose Hws Hobj. split; [now apply json_candidate_braced|].
  unfold parse_possible_json. rewrite json_candidate_braced by assumption.
  simpl. now rewrite Hobj.
Qed.

Lemma parse_trailing_object_witness :
  json_candidate (qstr "Here are the scores you asked for: {'a': 1}  ")
  = Ok (qstr "{'a': 1}")
  /\ parse_possible_json (scripted [] [])
       (qstr "Here are the scores you asked for: {'a': 1}  ")
     = Ok (JDict [(str "a", JInt 1)]).
Proof.
  exact (parse_trailing_object (scripted [] [])
           (str "Here are the scores you asked for: ") (qstr "'a': 1") (str "  ")
           (JDict [(str "a", JInt 1)]) eq_refl eq_refl eq_refl).
Defined.

(** C3 fails as stated when the prose has a brace of its own: the span
    starts at that brace, and the decoder, which accepts the object alone,
    rejects the span. *)
Lemma parse_braced_prose_fails :
  JsonDecoder.loads (qstr "{'a': 1}") = Some (JDict [(str "a", JInt 1)])
  /\ json_candidate braced_prose_reply = Ok (qstr "{draft}: {'a': 1}")
  /\ parse_possible_json (scripted [] []) braced_prose_reply = Raise JSONDecodeError.
Proof. repeat split; vm_compute; reflexivity. Qed.

(** * Further properties *)

(** ** Pages, words and chunks *)

Lemma split_from_app_space (x y : pystr) (c : char) :
  isspace c = true ->
  forall w, split_from w (x ++ c :: y) = split_from w x ++ split y.
Proof.
  intros Hc. induction x as [|b x IH]; intros w; simpl.
  - rewrite Hc. now destruct w.
  - destruct (isspace b).
    + destruct w; [apply IH|]. simpl. f_equal. apply IH.
    + apply IH.
Qed.

(** The blank line between two pages ends a word and adds none. *)
Lemma split_join_pages (l : list pystr) :
  split (join [10%N; 10%N] l) = concat (map split l).
Proof.
  induction l as [|x r IH]; [reflexivity|].
  destruct r as [|y r].
  - simpl. now rewrite app_nil_r.
  - rewrite join_cons.
    change (concat (map split (x :: y :: r)))
      with (split x ++ concat (map split (y :: r))).
    rewrite <- IH. unfold split at 1. cbn [app].
    now rewrite split_from_app_space by reflexivity.
Qed.

(** X1: reading a document and chunking its text keeps the words of the
    pages that were read, in the order of the pages: the chunks never join
    the last word of a page to the first word of the next, and a page whose
    extraction raises or gives nothing adds no word. *)
Theorem chunks_keep_page_words (reader_pages : list page) (max_pages : option Z)
    (target_tokens : Z) :
  concat (map split (chunk_text (read_pdf_text reader_pages max_pages) target_tokens))
  = concat (map (fun p => split (extract_or_empty p)) (pages_read reader_pages max_pages)).
Proof.
  rewrite chunk_text_split. unfold read_pdf_text.
  now rewrite split_join_pages, map_map.
Qed.

Lemma join_app (sep : pystr) (l1 l2 : list pystr) :
  l1 <> [] -> l2 <> [] ->
  join sep (l1 ++ l2) = join sep l1 ++ sep ++ join sep l2.
Proof.
  intros H1 H2. induction l1 as [|x l1 IH]; [congruence|].
  destruct l1 as [|y l1].
  - simpl. now destruct l2.
  - change ((x :: y :: l1) ++ l2) with (x :: y :: (l1 ++ l2)).
    rewrite !join_cons. change (y :: l1 ++ l2) with ((y :: l1) ++ l2).
    rewrite IH by discriminate. now rewrite <- !app_assoc.
Qed.

Lemma join_concat (sep : pystr) (ls : list (list pystr)) :
  Forall (fun l => l <> []) ls ->
  join sep (map (join sep) ls) = join sep (concat ls).
Proof.
  induction 1 as [|l rest Hl Hrest IH]; [reflexivity|].
  destruct rest as [|l' rest].
  - simpl. now rewrite app_nil_r.
  - change (map (join sep) (l :: l' :: rest))
      with (join sep l :: join sep l' :: map (join sep) rest).
    rewrite join_cons.
    change (join sep l' :: map (join sep) rest) with (map (join sep) (l' :: rest)).
    rewrite IH. change (concat (l :: l' :: rest)) with (l ++ concat (l' :: rest)).
    rewrite join_app; [reflexivity|assumption|].
    inversion Hrest; subst. now destruct l'.
Qed.

(** Every chunk is a run of words with one space between two of them. *)
Lemma chunk_loop_shape (chunk_size : Z) (words : list pystr) :
  forall chunks buf size,
    Forall (fun x => is_word x = true) (buf ++ words) ->
    Forall (fun c => split c <> [] /\ join [SPACE] (split c) = c) chunks ->
    Forall (fun c => split c <> [] /\ join [SPACE] (split c) = c)
      (fst (chunk_loop chunk_size words chunks buf size))
    /\ Forall (fun x => is_word x = true)
         (snd (chunk_loop chunk_size words chunks buf size)).
Proof.
  induction words as [|w ws IH]; intros chunks buf size H Hc; simpl.
  - rewrite app_nil_r in H. now split.
  - replace (buf ++ w :: ws) with ((buf ++ [w]) ++ ws) in H
      by now rewrite <- app_assoc.
    destruct (size + (len w + 1) >=? chunk_size).
    + apply IH; [apply Forall_app in H; now apply H|].
      apply Forall_app. split; [assumption|]. constructor; [|constructor].
      apply Forall_app in H as [H _]. rewrite (split_join _ H).
      split; [now destruct buf|reflexivity].
    + now apply IH.
Qed.

Lemma chunk_text_shape (s : pystr) (target_tokens : Z) :
  Forall (fun c => split c <> [] /\ join [SPACE] (split c) = c)
    (chunk_text s target_tokens).
Proof.
  unfold chunk_text.
  destruct (chunk_loop_shape (target_tokens * 4) (split s) [] [] 0 (split_words s)
              (Forall_nil _)) as [Hc Hb].
  destruct (chunk_loop (target_tokens * 4) (split s) [] [] 0) as [chunks buf].
  simpl in Hc, Hb. destruct buf as [|b buf]; [assumption|].
  apply Forall_app. split; [assumption|]. constructor; [|constructor].
  rewrite (split_join _ Hb). split; [discriminate|reflexivity].
Qed.

(** X2: the chunks, joined by single spaces, are the words of the text
    joined by single spaces: chunking only turns every run of whitespace into
    one space, and every chunk is itself such a run of words, never empty. *)
Theorem chunk_text_joined (s : pystr) (target_tokens : Z) :
  join [SPACE] (chunk_text s target_tokens) = join [SPACE] (split s)
  /\ Forall (fun c => c <> [] /\ join [SPACE] (split c) = c)
       (chunk_text s target_tokens).
Proof.
  pose proof (chunk_text_shape s target_tokens) as Hshape. split.
  - rewrite <- (chunk_text_split s target_tokens).
    rewrite <- join_concat.
    + f_equal. rewrite map_map. rewrite <- (map_id (chunk_text s target_tokens)) at 1.
      apply map_ext_in. intros c Hc. rewrite Forall_forall in Hshape.
      symmetry. now apply Hshape.
    + apply Forall_map. eapply Forall_impl; [|exact Hshape]. now intros c [Hc _].
  - eapply Forall_impl; [|exact Hshape]. intros c [Hne Hj]. split; [|assumption].
    intros ->. now apply Hne.
Qed.

Lemma weight_nonneg (buf : list pystr) : 0 <= weight buf.
Proof. induction buf as [|w r IH]; simpl; unfold len in *; lia. Qed.

Lemma chunk_loop_bound (chunk_size m : Z) (words : list pystr) :
  Forall (fun w => len w <= m) words ->
  forall chunks buf size,
    size = weight buf -> size < chunk_size ->
    Forall (fun c => len c <= chunk_size - 1 + m) chunks ->
    Forall (fun c => len c <= chunk_size - 1 + m)
      (fst (chunk_loop chunk_size words chunks buf size))
    /\ weight (snd (chunk_loop chunk_size words chunks buf size)) < chunk_size.
Proof.
  induction 1 as [|w ws Hw Hws IH]; intros chunks buf size Hsize Hlt Hc; simpl.
  - split; [assumption|lia].
  - pose proof (weight_nonneg buf) as Hbuf.
    destruct (size + (len w + 1) >=? chunk_size) eqn:Hge.
    + apply IH; [reflexivity|lia|].
      apply Forall_app. split; [assumption|]. constructor; [|constructor].
      rewrite len_join by (now destruct buf). rewrite weight_app. simpl. lia.
    + apply IH; [rewrite weight_app; simpl; lia| |assumption].
      rewrite Z.geb_leb in Hge. apply Z.leb_gt in Hge. lia.
Qed.

(** X3: with a positive budget, no chunk is longer than the budget in
    characters, less one, plus the length of the longest word of the text: a
    chunk is closed by the first word that takes the counter to the
    budget. *)
Theorem chunk_text_bounded (s : pystr) (target_tokens m : Z) :
  0 < target_tokens ->
  Forall (fun w => len w <= m) (split s) ->
  Forall (fun c => len c <= target_tokens * 4 - 1 + m) (chunk_text s target_tokens).
Proof.
  intros Ht Hm. unfold chunk_text.
  destruct (chunk_loop_bound (target_tokens * 4) m (split s) Hm [] [] 0 eq_refl
              ltac:(lia) (Forall_nil _)) as [Hc Hb].
  pose proof (chunk_loop_words (target_tokens * 4) (split s) [] [] 0 (split_words s))
    as Hwords.
  destruct (chunk_loop (target_tokens * 4) (split s) [] [] 0) as [chunks buf].
  simpl in Hc, Hb, Hwords. destruct buf as [|b buf]; [assumption|].
  apply Forall_app. split; [assumption|]. constructor; [|constructor].
  rewrite len_join by discriminate.
  assert (In b (split s)) as Hin
    by (rewrite <- Hwords; apply in_or_app; right; now left).
  rewrite Forall_forall in Hm. specialize (Hm b Hin). unfold len in *. lia.
Qed.

Lemma chunk_text_bounded_witness :
  Forall (fun c => len c <= 2 * 4 - 1 + 3) (chunk_text (str "ab cd   efg h ij") 2).
Proof.
  apply (chunk_text_bounded (str "ab cd   efg h ij") 2 3); [lia|].
  vm_compute. repeat constructor; discriminate.
Defined.

Lemma chunk_loop_short (chunk_size : Z) (words : list pystr) :
  forall chunks buf size,
    size + weight words < chunk_size ->
    chunk_loop chunk_size words chunks buf size = (chunks, buf ++ words).
Proof.
  induction words as [|w ws IH]; intros chunks buf size H; simpl.
  - now rewrite app_nil_r.
  - simpl in H. pose proof (weight_nonneg ws) as Hws.
    replace (size + (len w + 1) >=? chunk_size) with false
      by (symmetry; rewrite Z.geb_leb; apply Z.leb_gt; lia).
    rewrite IH by lia. now rewrite <- app_assoc.
Qed.

(** X4: a text whose words, counted with one separator each, stay under the
    budget gives one chunk, the words of the text joined by single spaces. *)
Theorem chunk_text_short (s : pystr) (target_tokens : Z) :
  split s <> [] ->
  weight (split s) < target_tokens * 4 ->
  chunk_text s target_tokens = [join [SPACE] (split s)].
Proof.
  intros Hne Hw. unfold chunk_text. rewrite chunk_loop_short by lia.
  simpl. now destruct (split s).
Qed.

Lemma chunk_text_short_witness :
  chunk_text (str " a short   plan ") 1200 = [str "a short plan"].
Proof.
  apply (chunk_text_short (str " a short   plan ") 1200); [discriminate|].
  vm_compute. reflexivity.
Defined.

Lemma chunk_loop_each_word (chunk_size : Z) (words : list pystr) :
  chunk_size <= 1 ->
  forall chunks, chunk_loop chunk_size words chunks [] 0 = (chunks ++ words, []).
Proof.
  intros Hcs. induction words as [|w ws IH]; intros chunks; simpl.
  - now rewrite app_nil_r.
  - replace (len w + 1 >=? chunk_size) with true
      by (symmetry; apply Z.geb_le; unfold len; lia).
    rewrite IH. now rewrite <- app_assoc.
Qed.

(** X5: a budget of zero or less is not refused: every word of the text is
    then a chunk of its own. *)
Theorem chunk_text_no_budget (s : pystr) (target_tokens : Z) :
  target_tokens <= 0 -> chunk_text s target_tokens = split s.
Proof.
  intros Ht. unfold chunk_text. now rewrite chunk_loop_each_word by lia.
Qed.

Lemma chunk_text_no_budget_witness :
  chunk_text (str "one two  three") 0 = [str "one"; str "two"; str "three"].
Proof. apply (chunk_text_no_budget (str "one two  three") 0). lia. Defined.

(** ** The page cap, at its edges *)

(** X6: with no [--max-pages], with [--max-pages 0] and with a cap that is
    not below the number of pages, every page of the document is read; a
    negative cap [-k] leaves out the last [k] pages. *)
Theorem pages_read_edges (reader_pages : list page) :
  pages_read reader_pages None = reader_pages
  /\ pages_read reader_pages (Some 0) = reader_pages
  /\ (forall n, Z.of_nat (List.length reader_pages) <= n ->
        pages_read reader_pages (Some n) = reader_pages)
  /\ (forall k, (0 < k)%nat ->
        pages_read reader_pages (Some (- Z.of_nat k))
        = firstn (List.length reader_pages - k) reader_pages).
Proof.
  unfold pages_read, or_else, slice_to. repeat split.
  - replace (Z.of_nat (List.length reader_pages) <? 0) with false
      by (symmetry; apply Z.ltb_ge; lia).
    rewrite Nat2Z.id. apply firstn_all.
  - simpl.
    replace (Z.of_nat (List.length reader_pages) <? 0) with false
      by (symmetry; apply Z.ltb_ge; lia).
    rewrite Nat2Z.id. apply firstn_all.
  - intros n Hn. destruct (n =? 0) eqn:H0.
    + replace (Z.of_nat (List.length reader_pages) <? 0) with false
        by (symmetry; apply Z.ltb_ge; lia).
      rewrite Nat2Z.id. apply firstn_all.
    + replace (n <? 0) with false by (symmetry; apply Z.ltb_ge; lia).
      apply firstn_all2. lia.
  - intros k Hk.
    replace (- Z.of_nat k =? 0) with false by (symmetry; apply Z.eqb_neq; lia).
    replace (- Z.of_nat k <? 0) with true by (symmetry; apply Z.ltb_lt; lia).
    f_equal. lia.
Qed.

(** ** The reply parser, at its edges *)

Lemma lstrip_head (s r : pystr) (c : char) : lstrip s = c :: r -> isspace c = false.
Proof.
  induction s as [|b s IH]; simpl; [discriminate|].
  destruct (isspace b) eqn:Hb; [exact IH|]. now intros [= <- _].
Qed.

Lemma lstrip_nil (s : pystr) : lstrip s = [] <-> forallb isspace s = true.
Proof.
  split; [|apply lstrip_blank].
  induction s as [|b s IH]; simpl; [reflexivity|].
  destruct (isspace b); [exact IH|discriminate].
Qed.

Lemma forallb_lstrip (s : pystr) :
  forallb isspace (lstrip s) = true -> lstrip s = [].
Proof.
  destruct (lstrip s) as [|c r] eqn:H; [reflexivity|].
  apply lstrip_head in H. simpl. now rewrite H.
Qed.

Lemma strip_nil (s : pystr) : strip s = [] <-> forallb isspace s = true.
Proof.
  unfold strip, rstrip. rewrite <- lstrip_nil. split.
  - intros H. apply (f_equal (@rev char)) in H. rewrite rev_involutive in H.
    simpl in H. apply lstrip_nil in H.
    apply forallb_lstrip. rewrite <- (rev_involutive (lstrip s)).
    now apply forallb_rev.
  - intros ->. reflexivity.
Qed.

(** X7: [parse_possible_json] raises the error for an empty output exactly
    on the replies that are empty or made of whitespace only, whatever the
    decoder; every other failure is the decoder's. *)
Theorem parse_empty_output (E : env) (s : pystr) :
  (parse_possible_json E s = Raise ValueError <-> forallb isspace s = true)
  /\ forall e, parse_possible_json E s = Raise e -> e = ValueError \/ e = JSONDecodeError.
Proof.
  unfold parse_possible_json, json_candidate.
  destruct (strip s) as [|c r] eqn:Hs.
  - apply strip_nil in Hs. split; [now split|]. intros e [= <-]. now left.
  - assert (forallb isspace s <> true) as Hn
      by (intros H; apply strip_nil in H; congruence).
    set (u := strip (sub_wrappers (c :: r))).
    assert (forall x, (match json_loads E x with
                       | Some v => Ok v
                       | None => Raise JSONDecodeError
                       end = Raise ValueError) -> False) as Hx
      by (intros x; destruct (json_loads E x); discriminate).
    assert (forall x e, (match json_loads E x with
                         | Some v => Ok v
                         | None => Raise JSONDecodeError
                         end = Raise e) -> e = JSONDecodeError) as Hy
      by (intros x e; destruct (json_loads E x); [discriminate|now intros [= <-]]).
    destruct (startswith [LBRACE] u); [|destruct (search_object u)]; simpl;
      (split; [split; [intros H; now apply Hx in H|tauto]
              |intros e H; right; now apply Hy in H]).
Qed.

Lemma startswith_app (p x : pystr) : startswith p (p ++ x) = true.
Proof.
  induction p as [|a p IH]; [reflexivity|].
  simpl. unfold char_eqb. now rewrite N.eqb_refl.
Qed.

Lemma lstrip_blank_app (ws x : pystr) (c : char) :
  forallb isspace ws = true -> isspace c = false -> lstrip (ws ++ c :: x) = c :: x.
Proof.
  intros Hws Hc. rewrite lstrip_app_head by assumption.
  now rewrite (lstrip_blank ws Hws).
Qed.

Lemma not_fence (t : pystr) :
  In RBRACE t -> pystr_eqb t FENCE = false /\ pystr_eqb t (FENCE ++ [10%N]) = false.
Proof.
  intros H. split; apply pystr_eqb_neq; intros ->; vm_compute in H;
    repeat (destruct H as [H|H]; [discriminate|]); exact H.
Qed.

Lemma sub_closing_fence_blank (ws : pystr) :
  forallb isspace ws = true -> sub_closing_fence (ws ++ FENCE) = [].
Proof.
  intros Hws. destruct ws as [|c r]; [reflexivity|].
  change ((c :: r) ++ FENCE) with (c :: (r ++ FENCE)).
  cbn [sub_closing_fence]. change (c :: (r ++ FENCE)) with ((c :: r) ++ FENCE).
  unfold closing_fence. change FENCE with (96%N :: [96%N; 96%N]) at 1.
  rewrite lstrip_blank_app by (assumption || reflexivity).
  reflexivity.
Qed.

(** The closing fence is cut after the last brace, and nothing before. *)
Lemma sub_closing_fence_cut (ws : pystr) :
  forallb isspace ws = true ->
  forall q, sub_closing_fence (q ++ [RBRACE] ++ ws ++ FENCE) = q ++ [RBRACE].
Proof.
  intros Hws. induction q as [|x q IH].
  - cbn [app sub_closing_fence]. unfold closing_fence.
    cbn [lstrip]. change (isspace RBRACE) with false. cbv iota.
    destruct (not_fence (RBRACE :: ws ++ FENCE)) as [-> ->]; [now left|].
    now rewrite sub_closing_fence_blank.
  - change ((x :: q) ++ [RBRACE] ++ ws ++ FENCE)
      with (x :: (q ++ [RBRACE] ++ ws ++ FENCE)).
    cbn [sub_closing_fence]. unfold closing_fence.
    change (x :: (q ++ [RBRACE] ++ ws ++ FENCE))
      with ((x :: q) ++ RBRACE :: (ws ++ FENCE)).
    rewrite lstrip_app_head by reflexivity.
    destruct (not_fence (lstrip (x :: q) ++ RBRACE :: ws ++ FENCE)) as [-> ->].
    { apply in_or_app. right. now left. }
    change ((x :: q) ++ [RBRACE]) with (x :: (q ++ [RBRACE])). f_equal.
    exact IH.
Qed.

Lemma strip_core (ws0 ws3 mid : pystr) (a b : char) :
  isspace a = false -> isspace b = false ->
  forallb isspace ws0 = true -> forallb isspace ws3 = true ->
  strip (ws0 ++ a :: mid ++ b :: ws3) = a :: mid ++ [b].
Proof.
  intros Ha Hb H0 H3. unfold strip.
  rewrite lstrip_blank_app by assumption.
  change (a :: mid ++ b :: ws3) with ((a :: mid) ++ [b] ++ ws3).
  now rewrite rstrip_tail by assumption.
Qed.

Lemma json_candidate_fenced (body ws0 ws1 ws2 ws3 : pystr) :
  forallb isspace ws0 = true -> forallb isspace ws1 = true ->
  forallb isspace ws2 = true -> forallb isspace ws3 = true ->
  json_candidate (ws0 ++ FENCE_JSON ++ ws1 ++ braced body ++ ws2 ++ FENCE ++ ws3)
  = Ok (braced body).
Proof.
  intros H0 H1 H2 H3. unfold json_candidate.
  assert (strip (ws0 ++ FENCE_JSON ++ ws1 ++ braced body ++ ws2 ++ FENCE ++ ws3)
          = FENCE_JSON ++ ws1 ++ braced body ++ ws2 ++ FENCE) as ->.
  { set (mid := skipn 1 FENCE_JSON ++ ws1 ++ braced body ++ ws2 ++ [96%N; 96%N]).
    assert (FENCE_JSON ++ ws1 ++ braced body ++ ws2 ++ FENCE = 96%N :: mid ++ [96%N])
      as Hcore.
    { unfold mid. change FENCE_JSON with ([96%N] ++ skipn 1 FENCE_JSON) at 1.
      change FENCE with ([96%N; 96%N] ++ [96%N]).
      rewrite <- !app_assoc. reflexivity. }
    replace (ws0 ++ FENCE_JSON ++ ws1 ++ braced body ++ ws2 ++ FENCE ++ ws3)
      with (ws0 ++ 96%N :: mid ++ 96%N :: ws3).
    2:{ f_equal. change (96%N :: mid ++ 96%N :: ws3) with ((96%N :: mid) ++ [96%N] ++ ws3).
        rewrite app_assoc. change ((96%N :: mid) ++ [96%N]) with (96%N :: mid ++ [96%N]).
        rewrite <- Hcore. now rewrite <- !app_assoc. }
    rewrite Hcore. now apply strip_core. }
  change (FENCE_JSON ++ ws1 ++ braced body ++ ws2 ++ FENCE)
    with (96%N :: (skipn 1 FENCE_JSON ++ ws1 ++ braced body ++ ws2 ++ FENCE)) at 1.
  cbv iota. unfold sub_wrappers.
  rewrite startswith_app, skipn_prefix. unfold braced. cbn [app].
  rewrite lstrip_blank_app by (assumption || reflexivity).
  replace (LBRACE :: (body ++ [RBRACE]) ++ ws2 ++ FENCE)
    with ((LBRACE :: body) ++ [RBRACE] ++ ws2 ++ FENCE)
    by (cbn [app]; now rewrite <- app_assoc).
  rewrite sub_closing_fence_cut by assumption.
  pose proof (strip_braced [] body [] eq_refl) as Hstrip.
  unfold braced in Hstrip. cbn [app lstrip] in Hstrip. rewrite app_nil_r in Hstrip.
  change ((LBRACE :: body) ++ [RBRACE]) with (LBRACE :: body ++ [RBRACE]).
  rewrite Hstrip. cbn [startswith]. unfold char_eqb. now rewrite N.eqb_refl.
Qed.

(** X8: a reply made of the opening fence, a text that opens and closes
    with a brace, and the closing fence, with any whitespace around each of
    them, is parsed as that text alone is: the same result, the same
    error. *)
Theorem parse_fenced_object (E : env) (body ws0 ws1 ws2 ws3 : pystr) :
  forallb isspace ws0 = true -> forallb isspace ws1 = true ->
  forallb isspace ws2 = true -> forallb isspace ws3 = true ->
  parse_possible_json E
    (ws0 ++ FENCE_JSON ++ ws1 ++ braced body ++ ws2 ++ FENCE ++ ws3)
  = parse_possible_json E (braced body).
Proof.
  intros H0 H1 H2 H3. unfold parse_possible_json.
  rewrite json_candidate_fenced by assumption.
  pose proof (json_candidate_braced [] body [] eq_refl eq_refl) as H.
  cbn [app] in H. rewrite app_nil_r in H. now rewrite H.
Qed.

Lemma parse_fenced_object_witness :
  parse_possible_json (scripted [] [])
    ([10%N] ++ FENCE_JSON ++ [10%N] ++ braced (qstr "'a': 1") ++ [10%N] ++ FENCE ++ [])
  = parse_possible_json (scripted [] []) (braced (qstr "'a': 1")).
Proof.
  exact (parse_fenced_object (scripted [] []) (qstr "'a': 1") [10%N] [10%N] [10%N] []
           eq_refl eq_refl eq_refl eq_refl).
Defined.

(** ** Rows, at their edges *)

Lemma to_rows_loop_ok (its : dict) :
  forall row,
    (exists row', to_rows_loop its row = Ok row') <-> Forall has_score_and_why its.
Proof.
  induction its as [|[k v] rest IH]; intros row; simpl.
  - split; [constructor|now exists row].
  - split.
    + intros (row' & H).
      destruct (getitem v (str "score")) as [score|] eqn:Hs; [|discriminate].
      destruct (getitem v (str "justification")) as [why|] eqn:Hw; [|discriminate].
      simpl in H. constructor; [now exists score, why|].
      apply (IH (dict_set (dict_set row k score) (k ++ WHY) why)). now exists row'.
    + intros H. inversion H as [|? ? (score & why & Hs & Hw) Hrest]; subst.
      simpl in Hs, Hw. rewrite Hs, Hw. simpl. now apply IH.
Qed.

(** X9: [to_rows] returns Rows exactly for the replies that are a mapping
    with a [district] and with a [scores] mapping whose entries are all
    mappings with a [score] and a [justification]; on every other reply it
    raises. *)
Theorem to_rows_succeeds_iff (obj : json) :
  (exists rows, to_rows obj = Ok rows)
  <-> exists district scores,
        getitem obj (str "district") = Ok district
        /\ getitem obj (str "scores") = Ok (JDict scores)
        /\ Forall has_score_and_why scores.
Proof.
  unfold to_rows. split.
  - intros (rows & H).
    destruct (getitem obj (str "district")) as [d|]; [|discriminate]. simpl in H.
    destruct (getitem obj (str "scores")) as [[| | | | | |scores]|]; try discriminate.
    simpl in H.
    destruct (to_rows_loop scores [(str "district", d)]) as [row|] eqn:Hloop;
      [|discriminate].
    exists d, scores. repeat split.
    apply (to_rows_loop_ok scores [(str "district", d)]). now exists row.
  - intros (d & scores & -> & -> & Hall). simpl.
    apply (to_rows_loop_ok scores [(str "district", d)]) in Hall as (row & ->).
    now exists [row].
Qed.

Lemma dict_set_NoDup (d : dict) (k : pystr) (v : json) :
  NoDup (keys d) -> NoDup (keys (dict_set d k v)).
Proof.
  induction d as [|[k' v'] r IH]; simpl; intros H.
  - constructor; [tauto|constructor].
  - inversion H as [|? ? Hk' Hr]; subst.
    destruct (pystr_eqb k' k) eqn:Hk; simpl; [now constructor|].
    constructor; [|now apply IH].
    intros Hin. apply keys_dict_set in Hin as [Hin| ->]; [tauto|].
    now rewrite pystr_eqb_refl in Hk.
Qed.

Lemma dict_set_length (d : dict) (k : pystr) (v : json) :
  (List.length d <= List.length (dict_set d k v) <= S (List.length d))%nat.
Proof.
  induction d as [|[k' v'] r IH]; simpl; [lia|].
  destruct (pystr_eqb k' k); simpl; lia.
Qed.

Lemma dict_set_head (d : dict) (k : pystr) (v : json) (k0 : pystr) :
  nth_error (keys d) 0 = Some k0 -> nth_error (keys (dict_set d k v)) 0 = Some k0.
Proof.
  destruct d as [|[k' v'] r]; simpl; [discriminate|].
  now destruct (pystr_eqb k' k).
Qed.

Lemma to_rows_loop_dict (its : dict) :
  forall row row' k0,
    to_rows_loop its row = Ok row' ->
    NoDup (keys row) -> nth_error (keys row) 0 = Some k0 ->
    NoDup (keys row')
    /\ nth_error (keys row') 0 = Some k0
    /\ (List.length row <= List.length row' <= List.length row + 2 * List.length its)%nat.
Proof.
  induction its as [|[k v] rest IH]; intros row row' k0 H Hnd Hhead; simpl in H.
  - injection H as <-. repeat split; try assumption; simpl; lia.
  - destruct (getitem v (str "score")) as [score|]; [|discriminate].
    destruct (getitem v (str "justification")) as [why|]; [|discriminate].
    simpl in H.
    destruct (IH _ _ k0 H) as (Hnd' & Hhead' & Hlen).
    + now do 2 apply dict_set_NoDup.
    + now do 2 apply dict_set_head.
    + pose proof (dict_set_length row k score) as H1.
      pose proof (dict_set_length (dict_set row k score) (k ++ WHY) why) as H2.
      repeat split; try assumption; simpl; lia.
Qed.

(** X10: the Row that [to_rows] returns is a mapping whose first column is
    [district] and in which no column name comes twice; it has at least that
    one column and at most two more for every entry of [scores]. *)
Theorem to_rows_row_is_dict (obj : json) (rows : list dict) :
  to_rows obj = Ok rows ->
  exists row scores,
    rows = [row]
    /\ getitem obj (str "scores") = Ok (JDict scores)
    /\ NoDup (keys row)
    /\ nth_error (keys row) 0 = Some (str "district")
    /\ (1 <= List.length row <= 1 + 2 * List.length scores)%nat.
Proof.
  unfold to_rows. intros H.
  destruct (getitem obj (str "district")) as [d|]; [|discriminate]. simpl in H.
  destruct (getitem obj (str "scores")) as [[| | | | | |scores]|]; try discriminate.
  simpl in H.
  destruct (to_rows_loop scores [(str "district", d)]) as [row|] eqn:Hloop;
    [|discriminate].
  injection H as <-. exists row, scores.
  destruct (to_rows_loop_dict _ _ _ (str "district") Hloop) as (Hnd & Hhead & Hlen).
  - simpl. constructor; [tauto|constructor].
  - reflexivity.
  - simpl in Hlen. repeat split; try assumption; lia.
Qed.

Lemma to_rows_row_is_dict_witness :
  exists row scores,
    [[(str "district", JInt 3); (str "district — why", JStr (str "ok"))]] = [row]
    /\ getitem shadowing_reply (str "scores") = Ok (JDict scores)
    /\ NoDup (keys row)
    /\ nth_error (keys row) 0 = Some (str "district")
    /\ (1 <= List.length row <= 1 + 2 * List.length scores)%nat.
Proof.
  exact (to_rows_row_is_dict shadowing_reply
           [[(str "district", JInt 3); (str "district — why", JStr (str "ok"))]]
           eq_refl).
Defined.

(** ** The run as a whole *)

Lemma calls_app (l1 l2 : list event) : calls (l1 ++ l2) = calls l1 ++ calls l2.
Proof.
  induction l1 as [|ev l1 IH]; [reflexivity|].
  destruct ev; simpl; now rewrite IH.
Qed.

Lemma body_calls (E : env) (a : args) (i : nat) (pdf : pystr) (st : state) :
  (calls (log (fst (body E a i pdf st))) = calls (log st) ++ [i]
   \/ (calls (log (fst (body E a i pdf st))) = calls (log st)
       /\ snd (body E a i pdf st) <> Done)).
Proof.
  pose proof (body_cases E a i pdf st) as H.
  destruct (PdfReader E pdf) as [reader_pages|].
  2:{ rewrite H. right. split; [reflexivity|discriminate]. }
  left.
  destruct (call_model E i (model a) SYSTEM_PROMPT _) as [raw|];
    [|rewrite H; simpl; now rewrite calls_app].
  destruct (raw_write E a i pdf st raw);
    [|rewrite H; simpl; now rewrite calls_app].
  destruct (parse_possible_json E raw) as [obj|];
    [|rewrite H; simpl; now rewrite calls_app].
  destruct (json_write E a i pdf st raw obj);
    [|rewrite H; simpl; now rewrite calls_app].
  destruct (to_rows obj); rewrite H; simpl; now rewrite calls_app.
Qed.

Lemma loop_calls (E : env) (a : args) (docs : list pystr) :
  forall i st,
    exists m,
      (m <= List.length docs)%nat
      /\ calls (log (fst (loop E a i docs st))) = calls (log st) ++ seq i m
      /\ (snd (loop E a i docs st) = Done -> m = List.length docs).
Proof.
  induction docs as [|pdf rest IH]; intros i st; simpl.
  - exists O. simpl. rewrite app_nil_r. now repeat split.
  - pose proof (body_calls E a i pdf st) as Hb.
    destruct (body E a i pdf st) as [st1 [|e]]; simpl in Hb.
    + destruct Hb as [Hb|[_ Hb]]; [|congruence].
      destruct (IH (S i) st1) as (m & Hm & Hcalls & Hdone).
      exists (S m). split; [lia|]. split.
      * rewrite Hcalls, Hb. simpl. now rewrite <- app_assoc.
      * intros H. now rewrite (Hdone H).
    + destruct Hb as [Hb|[Hb _]].
      * exists 1%nat. simpl. split; [lia|]. split; [assumption|discriminate].
      * exists O. simpl. rewrite app_nil_r. split; [lia|].
        split; [assumption|discriminate].
Qed.

Lemma calls_of_end (evs : list event) : Forall of_end evs -> calls evs = [].
Proof.
  induction 1 as [|ev evs Hev Hevs IH]; [reflexivity|].
  destruct ev; simpl in *; tauto.
Qed.

(** X11: in every run the model is called for the documents in their order,
    once each and for none twice, from the first document up to the one at
    which the run stops; a run that goes through has called it once for
    every document. *)
Theorem one_call_per_document (E : env) (a : args) :
  exists m,
    (m <= List.length (pdfs a))%nat
    /\ calls (log (fst (main E a))) = seq 0 m
    /\ (snd (main E a) = Done -> m = List.length (pdfs a)).
Proof.
  destruct (loop_calls E a (pdfs a) O initial) as (m & Hm & Hcalls & Hdone).
  destruct (main_events E a) as (evs & Hlog & _ & Hevs & Hstop).
  exists m. split; [assumption|]. split.
  - rewrite Hlog, calls_app, (calls_of_end evs Hevs), app_nil_r. exact Hcalls.
  - intros Hmain. apply Hdone.
    destruct (snd (loop E a O (pdfs a) initial)) eqn:Hloop; [reflexivity|].
    rewrite Hstop in Hmain by discriminate. congruence.
Qed.

(** X12: when a document cannot be read or the call of the model raises,
    the run raises at that document with no file written for it: every file
    is as the earlier documents left it, and no Row is added. *)
Theorem abort_before_reply (E : env) (a : args) (pre post : list pystr)
    (pdf : pystr) (st : state) :
  pdfs a = pre ++ pdf :: post ->
  loop E a O pre initial = (st, Done) ->
  reply_of E a (List.length pre) pdf = None ->
  exists st' e,
    main E a = (st', Raised e)
    /\ all_rows st' = all_rows st
    /\ (forall path,
           file_at E (out a) (log st') path = file_at E (out a) (log st) path)
    /\ (forall p c, In (Written p c) (log st') -> In (Written p c) (log st)).
Proof.
  intros Hdocs Hpre Hreply.
  pose proof (main_cases E a) as Hmain.
  rewrite Hdocs, loop_app, Hpre in Hmain. simpl in Hmain.
  pose proof (body_cases E a (List.length pre) pdf st) as Hbody.
  revert Hreply. unfold reply_of.
  destruct (PdfReader E pdf) as [reader_pages|] eqn:Hpages.
  - assert (prompt_at E a (List.length pre) pdf
            = user_prompt_of E a (district_of E a (List.length pre) pdf) reader_pages)
      as Hu by (unfold prompt_at; now rewrite Hpages).
    rewrite <- Hu.
    destruct (call_model E _ (model a) SYSTEM_PROMPT _) as [raw|e]; [discriminate|].
    intros _. rewrite Hbody in Hmain. eexists _, e. split; [exact Hmain|].
    simpl. repeat split.
    + intros path. now rewrite file_at_app.
    + intros p c Hin. apply in_app_or in Hin as [Hin|[Hin|[]]];
        [assumption|discriminate].
  - intros _. rewrite Hbody in Hmain. exists st, PdfReadError. now repeat split.
Qed.

Lemma abort_before_reply_witness :
  let E := scripted three_pages [oakville_text] in
  let a := failing_run in
  let st := fst (loop E a O [str "north_plan.pdf"] initial) in
  exists st' e,
    main E a = (st', Raised e)
    /\ all_rows st' = all_rows st
    /\ (forall path,
           file_at E (out a) (log st') path = file_at E (out a) (log st) path)
    /\ (forall p c, In (Written p c) (log st') -> In (Written p c) (log st)).
Proof.
  intros E a st.
  apply (abort_before_reply E a [str "north_plan.pdf"] [] (str "south_plan.pdf")).
  - reflexivity.
  - vm_compute. reflexivity.
  - vm_compute. reflexivity.
Defined.



(** X14: a run writes no file but the two files of the districts of its
    documents and the two aggregate files. *)
Theorem writes_only_its_files (E : env) (a : args) (path : pystr) (c : content) :
  In (Written path c) (log (fst (main E a))) ->
  path = SCORES_CSV \/ path = SCORES_JSON
  \/ exists d,
       In d (districts E a O (pdfs a)) /\ (path = raw_path d \/ path = json_path d).
Proof.
  destruct (loop_events E a (pdfs a) O initial) as (evs & Hlog & Hevs).
  simpl in Hlog. rewrite Forall_forall in Hevs.
  destruct (main_events E a) as (evs' & Hmain & _ & Hevs' & _).
  rewrite Forall_forall in Hevs'.
  rewrite Hmain. intros Hin. apply in_app_or in Hin as [Hin|Hin].
  - right. right. rewrite Hlog in Hin.
    destruct (Hevs _ Hin) as (j & d & _ & Hd & Hev). now exists d.
  - specialize (Hevs' _ Hin). simpl in Hevs'. tauto.
Qed.

Lemma writes_only_its_files_witness :
  str "North Plan_raw.txt" = SCORES_CSV \/ str "North Plan_raw.txt" = SCORES_JSON
  \/ exists d,
       In d (districts failing_world failing_run O (pdfs failing_run))
       /\ (str "North Plan_raw.txt" = raw_path d \/ str "North Plan_raw.txt" = json_path d).
Proof.
  apply (writes_only_its_files failing_world failing_run
           (str "North Plan_raw.txt") (Text oakville_text)).
  vm_compute. tauto.
Defined.

(** A log in which every attempt to parse a reply comes right after the
    write of that reply to a raw file. *)
Lemma guarded_snoc (l : list event) (ev : event) :
  (forall l1 raw l2,
      l = l1 ++ ParseAttempted raw :: l2 ->
      exists l0 d, l1 = l0 ++ [Written (raw_path d) (Text (raw_or_marker raw))]) ->
  (forall raw,
      ev = ParseAttempted raw ->
      exists l0 d, l = l0 ++ [Written (raw_path d) (Text (raw_or_marker raw))]) ->
  forall l1 raw l2,
    l ++ [ev] = l1 ++ ParseAttempted raw :: l2 ->
    exists l0 d, l1 = l0 ++ [Written (raw_path d) (Text (raw_or_marker raw))].
Proof.
  intros Hl Hev l1 raw l2 H.
  destruct (exists_last (l := ParseAttempted raw :: l2)) as (l2' & ev' & Hlast);
    [discriminate|].
  rewrite Hlast in H. rewrite app_assoc in H. apply app_inj_tail in H as [H Hev'].
  destruct l2' as [|x l2'].
  - injection Hlast as Hlast _. rewrite app_nil_r in H. subst l.
    apply Hev. congruence.
  - injection Hlast as Hx _. subst x. now apply (Hl l1 raw l2').
Qed.

Lemma guarded_app (l evs : list event) :
  (forall l1 raw l2,
      l = l1 ++ ParseAttempted raw :: l2 ->
      exists l0 d, l1 = l0 ++ [Written (raw_path d) (Text (raw_or_marker raw))]) ->
  (forall raw, ~ In (ParseAttempted raw) evs) ->
  forall l1 raw l2,
    l ++ evs = l1 ++ ParseAttempted raw :: l2 ->
    exists l0 d, l1 = l0 ++ [Written (raw_path d) (Text (raw_or_marker raw))].
Proof.
  revert l. induction evs as [|ev evs IH]; intros l Hl Hevs.
  - now rewrite app_nil_r.
  - replace (l ++ ev :: evs) with ((l ++ [ev]) ++ evs) by (now rewrite <- app_assoc).
    apply IH.
    + apply guarded_snoc; [exact Hl|].
      intros raw ->. exfalso. apply (Hevs raw). now left.
    + intros raw Hin. apply (Hevs raw). now right.
Qed.

Lemma body_guarded (E : env) (a : args) (i : nat) (pdf : pystr) (st : state) :
  (forall l1 raw l2,
      log st = l1 ++ ParseAttempted raw :: l2 ->
      exists l0 d, l1 = l0 ++ [Written (raw_path d) (Text (raw_or_marker raw))]) ->
  forall l1 raw l2,
    log (fst (body E a i pdf st)) = l1 ++ ParseAttempted raw :: l2 ->
    exists l0 d, l1 = l0 ++ [Written (raw_path d) (Text (raw_or_marker raw))].
Proof.
  intros Hst. pose proof (body_cases E a i pdf st) as H.
  destruct (PdfReader E pdf) as [reader_pages|]; [|rewrite H; exact Hst].
  set (d := district_of E a i pdf) in *. set (u := prompt_at E a i pdf) in *.
  assert (forall rest,
             (forall r, ~ In (ParseAttempted r) rest) ->
             forall raw l1 raw0 l2,
               log st
               ++ [ModelCalled i u; Written (raw_path d) (Text (raw_or_marker raw));
                   ParseAttempted raw] ++ rest
               = l1 ++ ParseAttempted raw0 :: l2 ->
               exists l0 d, l1 = l0 ++ [Written (raw_path d) (Text (raw_or_marker raw0))])
    as Hturn.
  { intros rest Hrest raw.
    replace (log st
             ++ [ModelCalled i u; Written (raw_path d) (Text (raw_or_marker raw));
                 ParseAttempted raw] ++ rest)
      with ((((log st ++ [ModelCalled i u])
              ++ [Written (raw_path d) (Text (raw_or_marker raw))])
             ++ [ParseAttempted raw]) ++ rest)
      by (now rewrite <- !app_assoc).
    apply guarded_app; [|exact Hrest].
    apply guarded_snoc.
    - apply guarded_snoc; [|discriminate].
      apply guarded_snoc; [exact Hst|discriminate].
    - intros raw0 [= <-]. now exists (log st ++ [ModelCalled i u]), d. }
  destruct (call_model E i (model a) SYSTEM_PROMPT u) as [raw|].
  2:{ rewrite H. apply guarded_snoc; [exact Hst|discriminate]. }
  destruct (raw_write E a i pdf st raw).
  2:{ rewrite H. cbn [fst log]. apply guarded_app; [exact Hst|].
      intros r [Hin|[Hin|[]]]; discriminate. }
  destruct (parse_possible_json E raw) as [obj|].
  2:{ rewrite H. cbn [fst log]. apply (Hturn []). intros r []. }
  destruct (json_write E a i pdf st raw obj).
  2:{ rewrite H. cbn [fst log].
      apply (Hturn [WriteFailed (json_path d) e remains]).
      intros r [Hin|[]]. discriminate. }
  assert (forall l1 raw0 l2,
             log st ++ turn_events E a i pdf raw obj = l1 ++ ParseAttempted raw0 :: l2 ->
             exists l0 d, l1 = l0 ++ [Written (raw_path d) (Text (raw_or_marker raw0))])
    as Hdone.
  { apply (Hturn [Written (json_path d) (JsonDump obj)]).
    intros r [Hin|[]]. discriminate. }
  destruct (to_rows obj); rewrite H; exact Hdone.
Qed.

Lemma loop_guarded (E : env) (a : args) (docs : list pystr) :
  forall i st,
    (forall l1 raw l2,
        log st = l1 ++ ParseAttempted raw :: l2 ->
        exists l0 d, l1 = l0 ++ [Written (raw_path d) (Text (raw_or_marker raw))]) ->
    forall l1 raw l2,
      log (fst (loop E a i docs st)) = l1 ++ ParseAttempted raw :: l2 ->
      exists l0 d, l1 = l0 ++ [Written (raw_path d) (Text (raw_or_marker raw))].
Proof.
  induction docs as [|pdf rest IH]; intros i st Hst; simpl; [exact Hst|].
  pose proof (body_guarded E a i pdf st Hst) as Hb.
  destruct (body E a i pdf st) as [st1 [|e]]; simpl in Hb.
  - now apply IH.
  - exact Hb.
Qed.

(** X15: in the log of every run, from its first document to its last
    event, every attempt to parse a reply comes right after the write of that
    reply (or of the marker, for an empty one) to the raw file of a
    district. *)
Theorem every_parse_follows_its_raw_file (E : env) (a : args)
    (l1 l2 : list event) (raw : pystr) :
  log (fst (main E a)) = l1 ++ ParseAttempted raw :: l2 ->
  exists l0 d, l1 = l0 ++ [Written (raw_path d) (Text (raw_or_marker raw))].
Proof.
  destruct (main_events E a) as (evs & -> & _ & Hevs & _).
  apply guarded_app.
  - apply loop_guarded. intros k1 r k2 H. simpl in H. now destruct k1.
  - intros r Hin. rewrite Forall_forall in Hevs. exact (Hevs _ Hin).
Qed.

Lemma every_parse_follows_its_raw_file_witness :
  exists l0 d,
    firstn 2 (log (fst (main failing_world failing_run)))
    = l0 ++ [Written (raw_path d) (Text (raw_or_marker oakville_text))].
Proof.
  apply (every_parse_follows_its_raw_file failing_world failing_run
           (firstn 2 (log (fst (main failing_world failing_run))))
           (skipn 3 (log (fst (main failing_world failing_run))))
           oakville_text).
  vm_compute. reflexivity.
Defined.



(** ** File names *)

Lemma split_on_last (sep : char) (x y : pystr) :
  forall cur, exists l, split_on sep cur (x ++ sep :: y) = l ++ split_on sep [] y.
Proof.
  induction x as [|c x IH]; intros cur; simpl.
  - unfold char_eqb. rewrite N.eqb_refl. now exists [cur].
  - destruct (char_eqb c sep).
    + destruct (IH []) as (l & ->). now exists (cur :: l).
    + apply IH.
Qed.

Lemma stem_of_name (name ext : pystr) :
  name <> [] -> ext <> [] -> ~ In SLASH name -> ~ In SLASH ext -> ~ In DOT ext ->
  forall parts,
    last (filter (fun x => negb (pystr_eqb x [] || pystr_eqb x [DOT]))
            (parts ++ [name ++ DOT :: ext])) []
    = name ++ DOT :: ext
    /\ match rfind DOT (name ++ DOT :: ext) with
       | Some i =>
           if (0 <? i)%nat && (i <? List.length (name ++ DOT :: ext) - 1)%nat
           then firstn i (name ++ DOT :: ext)
           else name ++ DOT :: ext
       | None => name ++ DOT :: ext
       end = name.
Proof.
  intros Hname Hext Hn He Hd parts. split.
  - rewrite filter_app. simpl.
    replace (pystr_eqb (name ++ DOT :: ext) []) with false
      by (symmetry; apply pystr_eqb_neq; now destruct name).
    replace (pystr_eqb (name ++ DOT :: ext) [DOT]) with false.
    + simpl. apply last_last.
    + symmetry. apply pystr_eqb_neq. intros H.
      apply (f_equal (@List.length char)) in H. rewrite length_app in H.
      destruct name; [congruence|]. destruct ext; [congruence|]. simpl in H. lia.
  - rewrite (rfind_last DOT name ext Hd), length_app. simpl.
    replace (0 <? List.length name)%nat with true
      by (symmetry; apply Nat.ltb_lt; destruct name; [congruence|simpl; lia]).
    replace (List.length name <? List.length name + S (List.length ext) - 1)%nat
      with true
      by (symmetry; apply Nat.ltb_lt; destruct ext; [congruence|simpl; lia]).
    simpl. rewrite firstn_app, Nat.sub_diag, firstn_all. simpl.
    now rewrite app_nil_r.
Qed.

(** X17: for a file name made of a non-empty name, a dot and a non-empty
    extension with no dot in it, the stem is the name, whatever directories
    the path goes through and whatever dots the name has before its last
    one. *)
Theorem stem_drops_directory_and_extension (dir name ext : pystr) :
  name <> [] -> ext <> [] -> ~ In SLASH name -> ~ In SLASH ext -> ~ In DOT ext ->
  stem (name ++ DOT :: ext) = name
  /\ stem (dir ++ SLASH :: name ++ DOT :: ext) = name.
Proof.
  intros Hname Hext Hn He Hd.
  assert (~ In SLASH (name ++ DOT :: ext)) as Hfile.
  { intros H. apply in_app_or in H as [H|[H|H]]; [tauto|discriminate|tauto]. }
  assert (forall p, path_name p = name ++ DOT :: ext -> stem p = name) as Hstem.
  { intros p Hp. unfold stem. rewrite Hp.
    exact (proj2 (stem_of_name name ext Hname Hext Hn He Hd [])). }
  split; apply Hstem; unfold path_name.
  - rewrite (split_on_plain SLASH _ Hfile []).
    exact (proj1 (stem_of_name name ext Hname Hext Hn He Hd [])).
  - destruct (split_on_last SLASH dir (name ++ DOT :: ext) []) as (parts & ->).
    rewrite (split_on_plain SLASH _ Hfile []).
    exact (proj1 (stem_of_name name ext Hname Hext Hn He Hd parts)).
Qed.

Lemma stem_drops_directory_and_extension_witness :
  stem (str "west_valley.v2" ++ DOT :: str "pdf") = str "west_valley.v2"
  /\ stem (str "/data/plans.d" ++ SLASH :: str "west_valley.v2" ++ DOT :: str "pdf")
     = str "west_valley.v2".
Proof.
  apply (stem_drops_directory_and_extension (str "/data/plans.d")
           (str "west_valley.v2") (str "pdf"));
    try discriminate; vm_compute; intuition discriminate.
Defined.

Lemma split_on_parts (P : char -> Prop) (sep : char) (s : pystr) :
  Forall P s ->
  forall cur,
    Forall P cur -> ~ In sep cur ->
    Forall (fun part => Forall P part /\ ~ In sep part) (split_on sep cur s).
Proof.
  induction 1 as [|c s Hc Hs IH]; intros cur Hcur Hsep; simpl.
  - now repeat constructor.
  - destruct (char_eqb c sep) eqn:Heq.
    + constructor; [now split|]. apply IH; [constructor|tauto].
    + apply IH.
      * apply Forall_app. split; [assumption|now repeat constructor].
      * intros Hin. apply in_app_or in Hin as [Hin|[Hin|[]]]; [tauto|].
        subst. unfold char_eqb in Heq. now rewrite N.eqb_refl in Heq.
Qed.

Lemma last_Forall {A} (P : A -> Prop) (l : list A) (d : A) :
  Forall P l -> P d -> P (last l d).
Proof.
  induction 1 as [|x l Hx Hl IH]; intros Hd; [assumption|].
  simpl. destruct l; [assumption|]. now apply IH.
Qed.

Lemma Forall_filter {A} (P : A -> Prop) (f : A -> bool) (l : list A) :
  Forall P l -> Forall P (filter f l).
Proof.
  induction 1 as [|x l Hx Hl IH]; simpl; [constructor|].
  destruct (f x); [now constructor|assumption].
Qed.

Lemma stem_chars (P : char -> Prop) (pdf : pystr) :
  Forall P pdf -> Forall P (stem pdf) /\ ~ In SLASH (stem pdf).
Proof.
  intros Hpdf.
  assert (Forall P (path_name pdf) /\ ~ In SLASH (path_name pdf)) as [Hn Hs].
  { unfold path_name.
    apply (last_Forall (fun part => Forall P part /\ ~ In SLASH part)).
    - apply Forall_filter. apply split_on_parts; [assumption|constructor|tauto].
    - split; [constructor|tauto]. }
  unfold stem. destruct (rfind DOT (path_name pdf)) as [i|]; [|now split].
  destruct ((0 <? i)%nat && (i <? List.length (path_name pdf) - 1)%nat);
    [|now split].
  split.
  - rewrite <- (firstn_skipn i (path_name pdf)) in Hn.
    now apply Forall_app in Hn.
  - intros Hin. apply Hs. rewrite <- (firstn_skipn i (path_name pdf)).
    apply in_or_app. now left.
Qed.

Lemma title_from_ascii_chars (whole : pystr) (s : pystr) :
  forall i b c,
    In c (title_from ascii_casing whole i b s) ->
    In c s \/ (65 <= c <= 90)%N \/ (97 <= c <= 122)%N.
Proof.
  induction s as [|x s IH]; intros i b c H; simpl in H; [tauto|].
  apply in_app_or in H as [H|H].
  - destruct b; simpl in H.
    + unfold is_upper_ascii in H.
      destruct ((65 <=? x) && (x <=? 90))%N eqn:Hx; destruct H as [<-|[]].
      * apply andb_prop in Hx as [H1 H2].
        apply N.leb_le in H1. apply N.leb_le in H2. right. right. lia.
      * left. now left.
    + unfold is_lower_ascii in H.
      destruct ((97 <=? x) && (x <=? 122))%N eqn:Hx; destruct H as [<-|[]].
      * apply andb_prop in Hx as [H1 H2].
        apply N.leb_le in H1. apply N.leb_le in H2. right. left. lia.
      * left. now left.
  - apply IH in H as [H|H]; [left; now right|now right].
Qed.

(** X18: for a path of ASCII characters, the district derived from the file
    name has no slash and no underscore in it, so the two files of the
    district are written in the output directory itself. *)
Theorem derived_name_is_plain (U : casing) (pdf : pystr) :
  ascii_range U ->
  Forall (fun c => (c < 128)%N) pdf ->
  ~ In SLASH (derived_name U pdf) /\ ~ In UNDERSCORE (derived_name U pdf).
Proof.
  intros HU Hpdf.
  destruct (stem_chars (fun c => (c < 128)%N) pdf Hpdf) as [Hascii Hslash].
  set (r := replace UNDERSCORE SPACE (stem pdf)).
  assert (Forall (fun c => (c < 128)%N) r) as Hr.
  { unfold r, replace. apply Forall_map. eapply Forall_impl; [|exact Hascii].
    intros c Hc. simpl. destruct (char_eqb c UNDERSCORE); [reflexivity|assumption]. }
  assert (~ In SLASH r /\ ~ In UNDERSCORE r) as [Hrs Hru].
  { unfold r, replace. split; intros H; apply in_map_iff in H as (x & Hx & Hin).
    - destruct (char_eqb x UNDERSCORE); [discriminate|]. subst. tauto.
    - destruct (char_eqb x UNDERSCORE) eqn:Heq; [discriminate|]. subst.
      unfold char_eqb in Heq. now rewrite N.eqb_refl in Heq. }
  unfold derived_name, title. fold r. rewrite (title_from_ascii U r HU r O false Hr).
  split; intros H; apply title_from_ascii_chars in H as [H|[H|H]];
    try tauto; unfold SLASH, UNDERSCORE in H; lia.
Qed.

Lemma derived_name_is_plain_witness :
  ~ In SLASH (derived_name ascii_casing (str "plans/2024/west_valley_plan.pdf"))
  /\ ~ In UNDERSCORE (derived_name ascii_casing (str "plans/2024/west_valley_plan.pdf")).
Proof.
  apply (derived_name_is_plain ascii_casing (str "plans/2024/west_valley_plan.pdf")
           ascii_range_ascii).
  vm_compute. repeat constructor.
Defined.

(** ** Files of other districts *)


